(** * virtua: the size/offset cache of [src/core/cache.ts]

    A shallow embedding of the cache that backs the virtual scroller, and
    the properties of its prefix-sum bookkeeping.

    Modelling conventions.
    - A JavaScript [number] holding an item size or an offset is an exact
      rational ([Q]); [===] on such numbers is [Qeq_bool], and results
      about sizes and offsets are stated up to [==] on [Q].
    - Indices and lengths are integers ([Z]): the source forms [length - 1]
      on an empty cache and compares indices with it.
      The rounding of floating-point arithmetic is not modelled.
    - An array is a [list Q].  Reading an index outside the array gives
      [undefined] in the source; here the read returns [None] and the
      operation that needed the value returns [None] as well.  Writing at
      the index just after the last one extends the array, as in the
      source; writing further away would leave holes and is [None].
    - The cache object is mutated in place; every operation that mutates
      it returns the new cache next to its result. *)

From Stdlib Require Import ZArith QArith Lqa Lia Sorted.
From stdpp Require Import base option list.

Open Scope Z_scope.

(** ** Data model *)

Definition UNCACHED : Q := (-1)%Q.

Record Cache : Type := mkCache {
  _defaultItemSize : Q;
  _length : Z;
  _sizes : list Q;
  _measuredOffsetIndex : Z;
  _offsets : list Q
}.

Definition with_sizes (cache : Cache) (sizes : list Q) : Cache :=
  mkCache (_defaultItemSize cache) (_length cache) sizes
          (_measuredOffsetIndex cache) (_offsets cache).

Definition with_offsets (cache : Cache) (offsets : list Q) : Cache :=
  mkCache (_defaultItemSize cache) (_length cache) (_sizes cache)
          (_measuredOffsetIndex cache) offsets.

Definition with_measuredOffsetIndex (cache : Cache) (index : Z) : Cache :=
  mkCache (_defaultItemSize cache) (_length cache) (_sizes cache)
          index (_offsets cache).

Definition with_defaultItemSize (cache : Cache) (size : Q) : Cache :=
  mkCache size (_length cache) (_sizes cache)
          (_measuredOffsetIndex cache) (_offsets cache).

Definition with_length (cache : Cache) (length : Z) : Cache :=
  mkCache (_defaultItemSize cache) length (_sizes cache)
          (_measuredOffsetIndex cache) (_offsets cache).

(** ** Arrays *)

(** [arr[i]]: [None] stands for [undefined]. *)
Definition aget (arr : list Q) (i : Z) : option Q :=
  if bool_decide (0 ≤ i) then arr !! Z.to_nat i else None.

(** [arr[i] = v]: replaces inside the array, extends it by one at
    [i = arr.length]. *)
Definition aset (arr : list Q) (i : Z) (v : Q) : option (list Q) :=
  if bool_decide (0 ≤ i < Z.of_nat (length arr)) then Some (<[Z.to_nat i := v]> arr)
  else if bool_decide (i = Z.of_nat (length arr)) then Some (arr ++ [v])
  else None.

(** [arr.splice(start, deleteCount)] ([deleteCount = None] when the argument
    is omitted): the removed elements and what is left of the array. *)
Definition splice (arr : list Q) (start : Z) (deleteCount : option Z)
  : list Q * list Q :=
  let len := Z.of_nat (length arr) in
  let s := if start <? 0 then Z.max (len + start) 0 else Z.min start len in
  let d := match deleteCount with
           | None => len - s
           | Some n => Z.min (Z.max n 0) (len - s)
           end in
  (take (Z.to_nat d) (drop (Z.to_nat s) arr),
   take (Z.to_nat s) arr ++ drop (Z.to_nat (s + d)) arr).

(** ** Helpers of [src/core/utils], which is not part of the sources *)

(** Modelled from the spec: [min] of [./utils] is missing; the spec uses it
    as the minimum of two indices
    ([measuredOffsetIndex = min(measuredOffsetIndex, index)]). *)
Definition min (a b : Z) : Z := Z.min a b.

(** Modelled from the spec: [clamp] of [./utils] is missing; the spec has
    the result "clamped to [[0, length-1]]", the arguments being the value,
    the lower bound and the upper bound; when the bounds cross, the upper
    bound wins. *)
Definition clamp (value minValue maxValue : Z) : Z :=
  min maxValue (Z.max minValue value).

Fixpoint insert_sorted (x : Q) (l : list Q) : list Q :=
  match l with
  | [] => [x]
  | y :: l' => if Qle_bool x y then x :: l else y :: insert_sorted x l'
  end.

Definition sort (arr : list Q) : list Q := foldr insert_sorted [] arr.

(** Modelled from the spec: [median] of [./utils] is missing; the spec
    says "the median of measured sizes": the middle element of the sorted
    values, the mean of the two middle ones when their number is even.
    The median of no value at all is [None]. *)
Definition median (arr : list Q) : option Q :=
  let s := sort arr in
  let mid := (length arr / 2)%nat in
  if Nat.even (length arr) then
    a ← s !! (mid - 1)%nat; b ← s !! mid; Some ((a + b) / 2)%Q
  else s !! mid.

(** ** Measurement store *)

Definition effectiveSize (defaultItemSize size : Q) : Q :=
  if Qeq_bool size UNCACHED then defaultItemSize else size.

Definition getItemSize (cache : Cache) (index : Z) : option Q :=
  size ← aget (_sizes cache) index;
  Some (effectiveSize (_defaultItemSize cache) size).

Definition setItemSize (cache : Cache) (index : Z) (size : Q)
  : option (bool * Cache) :=
  let isInitialMeasurement :=
    match aget (_sizes cache) index with
    | Some s => Qeq_bool s UNCACHED
    | None => false
    end in
  sizes ← aset (_sizes cache) index size;
  Some (isInitialMeasurement,
        with_measuredOffsetIndex (with_sizes cache sizes)
          (min index (_measuredOffsetIndex cache))).

Definition estimateDefaultItemSize (cache : Cache) : option Cache :=
  let measuredSizes :=
    filter (λ s, Qeq_bool s UNCACHED = false) (_sizes cache) in
  startItemSize ← measuredSizes !! 0%nat;
  size ← (if forallb (λ s, Qeq_bool s startItemSize) measuredSizes
          then Some startItemSize
          else median measuredSizes);
  Some (with_defaultItemSize cache size).

(** ** Offset and range engine *)

(** The [while (i < index)] loop of [computeOffset]; [fuel] bounds the
    number of iterations and [index - i] of them are enough. *)
Fixpoint computeOffset_loop (fuel : nat) (cache : Cache) (i : Z) (top : Q)
    (index : Z) : option (Q * Cache) :=
  if bool_decide (i < index) then
    match fuel with
    | O => None
    | S fuel' =>
        h ← getItemSize cache i;
        let top' := (top + h)%Q in
        offsets ← aset (_offsets cache) (i + 1) top';
        computeOffset_loop fuel' (with_offsets cache offsets) (i + 1) top' index
    end
  else Some (top, cache).

Definition computeOffset (cache : Cache) (index : Z) : option (Q * Cache) :=
  if _length cache =? 0 then Some (0%Q, cache)
  else if bool_decide (index ≤ _measuredOffsetIndex cache) then
    v ← aget (_offsets cache) index; Some (v, cache)
  else
    let i := _measuredOffsetIndex cache in
    top ← aget (_offsets cache) i;
    '(top', cache') ← computeOffset_loop (Z.to_nat (index - i)) cache i top index;
    Some (top', with_measuredOffsetIndex cache' index).

Definition computeTotalSize (cache : Cache) : option (Q * Cache) :=
  if _length cache =? 0 then Some (0%Q, cache)
  else
    '(offset, cache') ← computeOffset cache (_length cache - 1);
    h ← getItemSize cache' (_length cache' - 1);
    Some ((offset + h)%Q, cache').

(** The forward scan of [findIndex].  Next to the index it stops at, the
    scan returns the indices whose size it has read, most recent first;
    this list is not in the source and no result depends on it. *)
Fixpoint findIndex_forward (fuel : nat) (cache : Cache) (i : Z) (sum distance : Q)
    (reads : list Z) : option (Z * list Z) :=
  if bool_decide (i < _length cache - 1) then
    match fuel with
    | O => None
    | S fuel' =>
        h ← getItemSize cache i;
        let sum' := (sum + h)%Q in
        if Qle_bool distance sum' then
          Some (if Qle_bool distance (sum' - h / 2)%Q then i + 1 - 1 else i + 1,
                i :: reads)
        else findIndex_forward fuel' cache (i + 1) sum' distance (i :: reads)
    end
  else Some (i, reads).

(** The backward scan of [findIndex], with the same list of reads. *)
Fixpoint findIndex_backward (fuel : nat) (cache : Cache) (i : Z) (sum distance : Q)
    (reads : list Z) : option (Z * list Z) :=
  if bool_decide (0 < i) then
    match fuel with
    | O => None
    | S fuel' =>
        h ← getItemSize cache (i - 1);
        let sum' := (sum - h)%Q in
        if Qle_bool sum' distance then
          Some (if negb (Qle_bool distance (sum' + h / 2)%Q) then i - 1 + 1 else i - 1,
                (i - 1) :: reads)
        else findIndex_backward fuel' cache (i - 1) sum' distance ((i - 1) :: reads)
    end
  else Some (i, reads).

Definition findIndex_scan (cache : Cache) (i : Z) (distance : Q)
  : option (Z * list Z) :=
  if Qle_bool 0 distance
  then findIndex_forward (Z.to_nat (_length cache - 1 - i)) cache i 0 distance []
  else findIndex_backward (Z.to_nat i) cache i 0 distance [].

Definition findIndex (cache : Cache) (i : Z) (distance : Q) : option Z :=
  '(i', _) ← findIndex_scan cache i distance;
  Some (clamp i' 0 (_length cache - 1)).

Definition findStartIndexWithOffset (cache : Cache) (offset : Q) (initialIndex : Z)
  : option (Z * Cache) :=
  '(o, cache') ← computeOffset cache initialIndex;
  start ← findIndex cache' initialIndex (offset - o)%Q;
  Some (start, cache').

Definition computeRange (cache : Cache) (scrollOffset : Q) (prevStartIndex : Z)
    (viewportSize : Q) : option ((Z * Z) * Cache) :=
  '(start, cache') ← findStartIndexWithOffset cache scrollOffset
                       (min prevStartIndex (_length cache - 1));
  finish ← findIndex cache' start viewportSize;
  Some ((start, finish), cache').

Definition hasUnmeasuredItemsInRange (cache : Cache) (startIndex endIndex : Z)
  : bool :=
  let len := Z.of_nat (length (_sizes cache)) in
  let norm k := if k <? 0 then Z.max (len + k) 0 else Z.min k len in
  let s := norm startIndex in
  let e := norm (endIndex + 1) in
  existsb (λ x, Qeq_bool x UNCACHED)
    (take (Z.to_nat (e - s)) (drop (Z.to_nat s) (_sizes cache))).

(** ** Length mutator *)

(** The [for (let i = cache._length; i < length; i++)] loop of
    [appendCache], as its [n = length - cache._length] iterations from [i]
    on. *)
Fixpoint appendCache_loop (n : nat) (i : Z) (prepend : bool)
    (sizes offsets : list Q) : list Q * list Q :=
  match n with
  | O => (sizes, offsets)
  | S n' =>
      appendCache_loop n' (i + 1) prepend
        (if prepend then UNCACHED :: sizes else sizes ++ [UNCACHED])
        (offsets ++ [if i =? 0 then 0%Q else UNCACHED])
  end.

Definition appendCache (cache : Cache) (length : Z) (prepend : bool) : Cache :=
  let '(sizes, offsets) :=
    appendCache_loop (Z.to_nat (length - _length cache)) (_length cache) prepend
      (_sizes cache) (_offsets cache) in
  mkCache (_defaultItemSize cache) length sizes
          (_measuredOffsetIndex cache) offsets.

Definition initCache (length : Z) (itemSize : Q) : Cache :=
  appendCache (mkCache itemSize 0 [] 0 []) length false.

Definition updateCacheLength (cache : Cache) (length : Z) (isShift : bool)
  : (Q * bool) * Cache :=
  let diff := length - _length cache in
  let isRemove := diff <? 0 in
  let '(shift, cache1) :=
    if isRemove then
      let '(removed, sizes) :=
        if isShift then splice (_sizes cache) 0 (Some (- diff))
        else splice (_sizes cache) diff None in
      let shift :=
        fold_left
          (λ acc removed, (acc + effectiveSize (_defaultItemSize cache) removed)%Q)
          removed 0%Q in
      let '(_, offsets) := splice (_offsets cache) diff None in
      (shift, with_offsets (with_sizes cache sizes) offsets)
    else
      ((_defaultItemSize cache * inject_Z diff)%Q,
       appendCache cache (_length cache + diff) isShift) in
  let measuredOffsetIndex :=
    if isShift then 0
    else clamp (length - 1) 0 (_measuredOffsetIndex cache1) in
  ((shift, isRemove),
   with_length (with_measuredOffsetIndex cache1 measuredOffsetIndex) length).

(** ** Specification vocabulary *)

Definition sumQ (l : list Q) : Q := foldr Qplus 0%Q l.

(** [Σ_{k<i} effectiveSize(k)] over the current sizes. *)
Definition prefixSum (cache : Cache) (i : Z) : Q :=
  sumQ (map (effectiveSize (_defaultItemSize cache))
            (take (Z.to_nat i) (_sizes cache))).

(** The shape the data model gives a store: both arrays have [_length]
    entries and the watermark is an index of the store (0 when empty). *)
Record wf (cache : Cache) : Prop := mkWf {
  wf_length : 0 ≤ _length cache;
  wf_sizes : Z.of_nat (length (_sizes cache)) = _length cache;
  wf_offsets : Z.of_nat (length (_offsets cache)) = _length cache;
  wf_measured : 0 ≤ _measuredOffsetIndex cache ≤ Z.max (_length cache - 1) 0
}.

(** The cached offsets up to [upto] are the prefix sums of the sizes. *)
Definition offsets_valid (cache : Cache) (upto : Z) : Prop :=
  ∀ i, 0 ≤ i ≤ upto → i < _length cache →
    ∃ o, aget (_offsets cache) i = Some o ∧ (o == prefixSum cache i)%Q.

Definition cache_inv (cache : Cache) : Prop :=
  wf cache ∧ offsets_valid cache (_measuredOffsetIndex cache).

(** The operations that the prefix-sum invariant is stated for, on the
    inputs their contract allows. *)
Inductive step : Cache → Cache → Prop :=
| step_setItemSize cache index size b cache' :
    0 ≤ index < _length cache →
    setItemSize cache index size = Some (b, cache') →
    step cache cache'
| step_computeOffset cache index v cache' :
    0 ≤ index < _length cache →
    computeOffset cache index = Some (v, cache') →
    step cache cache'
| step_computeTotalSize cache v cache' :
    computeTotalSize cache = Some (v, cache') →
    step cache cache'
| step_computeRange cache scrollOffset prevStartIndex viewportSize r cache' :
    computeRange cache scrollOffset prevStartIndex viewportSize = Some (r, cache') →
    step cache cache'
| step_updateCacheLength cache length isShift r cache' :
    0 ≤ length →
    updateCacheLength cache length isShift = (r, cache') →
    step cache cache'.

Inductive reachable : Cache → Prop :=
| reachable_init length itemSize :
    0 ≤ length → reachable (initCache length itemSize)
| reachable_step cache cache' :
    reachable cache → step cache cache' → reachable cache'.

(** A run of offset queries, one after the other. *)
Fixpoint computeOffsets (cache : Cache) (indices : list Z) : option Cache :=
  match indices with
  | [] => Some cache
  | index :: rest =>
      '(_, cache') ← computeOffset cache index; computeOffsets cache' rest
  end.

(** The prefix-sum property without the restriction to the indices of the
    store: every [i] up to the watermark, also on an empty store. *)
Definition offsets_valid_upto_watermark (cache : Cache) : Prop :=
  ∀ i, 0 ≤ i ≤ _measuredOffsetIndex cache →
    ∃ o, aget (_offsets cache) i = Some o ∧ (o == prefixSum cache i)%Q.

(** ** Stores used as examples *)

(** [initCache(3, 10)] after [computeOffset(cache, 2)]. *)
Definition measured_cache : Cache :=
  mkCache 10 3 [UNCACHED; UNCACHED; UNCACHED] 2 [0; 10; 20]%Q.

(** Three items, all measured at 10. *)
Definition fixed_sizes_cache : Cache :=
  mkCache 40 3 [10; 10; 10]%Q 0 [0%Q; UNCACHED; UNCACHED].

(** Three items measured at 10, 1000 and 12. *)
Definition variable_sizes_cache : Cache :=
  mkCache 40 3 [10; 1000; 12]%Q 0 [0%Q; UNCACHED; UNCACHED].

(** The total scrollable extent: the sum of all effective sizes. *)
Definition totalSize (cache : Cache) : Q :=
  sumQ (map (effectiveSize (_defaultItemSize cache)) (_sizes cache)).

(** [initCache(3, 10)] after [computeOffset(cache, 2)],
    [setItemSize(cache, 2, 50)] and [estimateDefaultItemSize(cache)]: the
    default is now 50, the offsets were cached with the default 10. *)
Definition reestimated_cache : Cache :=
  mkCache 50 3 [UNCACHED; UNCACHED; 50%Q] 2 [0; 10; 20]%Q.

(** The running sum of the forward scan of [findIndex]: the effective
    sizes of the items [from], [from + 1], ..., [to - 1], added in this
    order starting from 0. *)
Definition forwardSum (cache : Cache) (from to : Z) : Q :=
  fold_left (λ acc s, (acc + effectiveSize (_defaultItemSize cache) s)%Q)
    (take (Z.to_nat (to - from)) (drop (Z.to_nat from) (_sizes cache))) 0%Q.

(** The running sum of the backward scan of [findIndex]: the effective
    sizes of the items [from - 1], [from - 2], ..., [to], subtracted in this
    order starting from 0. *)
Definition backwardSum (cache : Cache) (from to : Z) : Q :=
  fold_left (λ acc s, (acc - effectiveSize (_defaultItemSize cache) s)%Q)
    (rev (take (Z.to_nat (from - to)) (drop (Z.to_nat to) (_sizes cache)))) 0%Q.

(** ** Arrays: reads after writes *)

Lemma aget_Some arr i v :
  aget arr i = Some v → 0 ≤ i < Z.of_nat (length arr).
Proof.
  unfold aget. case_bool_decide; [|done].
  intros Hl%lookup_lt_Some. lia.
Qed.

Lemma aget_is_Some arr i :
  0 ≤ i < Z.of_nat (length arr) → is_Some (aget arr i).
Proof.
  intros Hi. unfold aget. rewrite bool_decide_eq_true_2 by lia.
  apply lookup_lt_is_Some. lia.
Qed.

Lemma aset_length arr i v arr' :
  0 ≤ i < Z.of_nat (length arr) →
  aset arr i v = Some arr' → length arr' = length arr.
Proof.
  intros Hi. unfold aset. rewrite bool_decide_eq_true_2 by lia.
  intros [= <-]. apply length_insert.
Qed.

Lemma aset_in_range arr i v :
  0 ≤ i < Z.of_nat (length arr) →
  aset arr i v = Some (<[Z.to_nat i := v]> arr).
Proof. intros Hi. unfold aset. by rewrite bool_decide_eq_true_2 by lia. Qed.

Lemma aget_aset_eq arr i v arr' :
  aset arr i v = Some arr' → aget arr' i = Some v.
Proof.
  unfold aset, aget. case_bool_decide as Hin.
  - intros [= <-]. rewrite bool_decide_eq_true_2 by lia.
    apply list_lookup_insert_eq. lia.
  - case_bool_decide as Hend; [|done]. intros [= <-].
    rewrite bool_decide_eq_true_2 by lia.
    rewrite lookup_app_r by lia.
    replace (Z.to_nat i - length arr)%nat with 0%nat by lia. done.
Qed.

Lemma aget_aset_ne arr i j v arr' :
  aset arr i v = Some arr' → 0 ≤ j < i → aget arr' j = aget arr j.
Proof.
  unfold aset, aget. intros Hset Hj.
  rewrite !bool_decide_eq_true_2 by lia.
  case_bool_decide as Hin.
  - injection Hset as <-. apply list_lookup_insert_ne. lia.
  - case_bool_decide as Hend; [|done]. injection Hset as <-.
    apply lookup_app_l. lia.
Qed.

(** ** Sums of effective sizes *)

Lemma sumQ_app l1 l2 : (sumQ (l1 ++ l2) == sumQ l1 + sumQ l2)%Q.
Proof.
  induction l1 as [|x l1 IH]; simpl.
  - lra.
  - rewrite IH. lra.
Qed.

Lemma fold_left_sumQ (f : Q → Q) l acc :
  (fold_left (λ a x, a + f x) l acc == acc + sumQ (map f l))%Q.
Proof.
  revert acc. induction l as [|x l IH]; intros acc; simpl.
  - lra.
  - rewrite IH. lra.
Qed.

Lemma prefixSum_0 cache : prefixSum cache 0 = 0%Q.
Proof. done. Qed.

Lemma prefixSum_succ cache i h :
  0 ≤ i → getItemSize cache i = Some h →
  (prefixSum cache (i + 1) == prefixSum cache i + h)%Q.
Proof.
  intros Hi. unfold getItemSize, aget, prefixSum.
  rewrite bool_decide_eq_true_2 by lia.
  destruct (_sizes cache !! Z.to_nat i) as [s|] eqn:Hs; [|done].
  intros [= <-].
  replace (Z.to_nat (i + 1)) with (S (Z.to_nat i)) by lia.
  rewrite (take_S_r _ _ _ Hs), map_app, sumQ_app. simpl. lra.
Qed.

Lemma getItemSize_is_Some cache i :
  0 ≤ i < Z.of_nat (length (_sizes cache)) → is_Some (getItemSize cache i).
Proof.
  intros Hi. unfold getItemSize.
  destruct (aget_is_Some (_sizes cache) i Hi) as [s ->]. by eexists.
Qed.

(** ** The extension loop of [computeOffset] *)

Lemma computeOffset_loop_frame fuel : ∀ cache i top index top' cache',
  computeOffset_loop fuel cache i top index = Some (top', cache') →
  cache' = with_offsets cache (_offsets cache').
Proof.
  induction fuel as [|fuel IH]; intros cache i top index top' cache'; simpl;
    case_bool_decide; try done.
  - intros [= <- <-]. by destruct cache.
  - destruct (getItemSize cache i) as [h|]; [simpl|done].
    destruct (aset _ _ _) as [offs|]; [simpl|done].
    intros Hrec. apply IH in Hrec. by rewrite Hrec at 1.
  - intros [= <- <-]. by destruct cache.
Qed.

Lemma computeOffset_loop_last fuel : ∀ cache i top index top' cache',
  computeOffset_loop fuel cache i top index = Some (top', cache') →
  i < index → aget (_offsets cache') index = Some top'.
Proof.
  induction fuel as [|fuel IH]; intros cache i top index top' cache'; simpl;
    case_bool_decide; try done; try lia.
  destruct (getItemSize cache i) as [h|]; [simpl|done].
  destruct (aset _ _ _) as [offs|] eqn:Hset; [simpl|done].
  intros Hrec _. destruct (decide (i + 1 < index)) as [Hlt|Hge].
  - by apply (IH _ _ _ _ _ _ Hrec).
  - assert (i + 1 = index) as <- by lia.
    destruct fuel; simpl in Hrec; rewrite bool_decide_eq_false_2 in Hrec by lia;
      injection Hrec as <- <-; simpl; by eapply aget_aset_eq.
Qed.

Lemma computeOffset_loop_total fuel : ∀ cache i top index,
  Z.of_nat (length (_sizes cache)) = _length cache →
  Z.of_nat (length (_offsets cache)) = _length cache →
  0 ≤ i → index < _length cache →
  (Z.to_nat (index - i) ≤ fuel)%nat →
  ∃ top' cache',
    computeOffset_loop fuel cache i top index = Some (top', cache') ∧
    length (_offsets cache') = length (_offsets cache).
Proof.
  induction fuel as [|fuel IH]; intros cache i top index Hs Ho Hi Hidx Hfuel;
    simpl; case_bool_decide; try lia; try by eauto.
  destruct (getItemSize_is_Some cache i) as [h ->]; [lia|]. simpl.
  rewrite aset_in_range by lia. simpl.
  destruct (IH (with_offsets cache (<[Z.to_nat (i + 1):=(top + h)%Q]> (_offsets cache)))
              (i + 1) (top + h)%Q index) as (top' & cache' & -> & Hlen);
    simpl; rewrite ?length_insert; try lia.
  eexists _, _. split; [done|]. by rewrite Hlen; simpl; rewrite length_insert.
Qed.

Lemma offsets_valid_weaken cache upto upto' :
  offsets_valid cache upto → upto' ≤ upto → offsets_valid cache upto'.
Proof. intros Hv Hle i Hi Hlen. apply Hv; lia. Qed.

Lemma computeOffset_loop_valid fuel : ∀ cache i top index top' cache',
  computeOffset_loop fuel cache i top index = Some (top', cache') →
  0 ≤ i ≤ index → index < _length cache →
  (top == prefixSum cache i)%Q →
  offsets_valid cache i →
  (top' == prefixSum cache index)%Q ∧ offsets_valid cache' index.
Proof.
  induction fuel as [|fuel IH]; intros cache i top index top' cache'; simpl;
    case_bool_decide as Hlt; try done.
  - intros [= <- <-] Hi Hidx Htop Hval. assert (i = index) as <- by lia. done.
  - destruct (getItemSize cache i) as [h|] eqn:Hh; [simpl|done].
    destruct (aset _ _ _) as [offs|] eqn:Hset; [simpl|done].
    intros Hrec Hi Hidx Htop Hval.
    apply IH in Hrec; simpl; try lia.
    + done.
    + change (prefixSum (with_offsets cache offs) (i + 1))
        with (prefixSum cache (i + 1)).
      rewrite (prefixSum_succ cache i h) by (done || lia). by rewrite Htop.
    + intros k Hk Hklen. simpl in *.
      change (prefixSum (with_offsets cache offs) k) with (prefixSum cache k).
      destruct (decide (k = i + 1)) as [->|Hne].
      * exists (top + h)%Q. split; [by eapply aget_aset_eq|].
        rewrite (prefixSum_succ cache i h) by (done || lia). by rewrite Htop.
      * rewrite (aget_aset_ne _ _ _ _ _ Hset) by lia. apply Hval; lia.
  - intros [= <- <-] Hi Hidx Htop Hval. assert (i = index) as <- by lia. done.
Qed.

(** ** [computeOffset] on a store that satisfies the invariant *)

Lemma computeOffset_total cache index :
  wf cache → 0 ≤ index < _length cache →
  is_Some (computeOffset cache index).
Proof.
  intros [Hlen Hs Ho Hm] Hidx. unfold computeOffset.
  destruct (Z.eqb_spec (_length cache) 0) as [|_]; [lia|].
  case_bool_decide as Hle.
  - destruct (aget_is_Some (_offsets cache) index) as [v ->]; [lia|]. by eexists.
  - destruct (aget_is_Some (_offsets cache) (_measuredOffsetIndex cache))
      as [top ->]; [lia|]. simpl.
    destruct (computeOffset_loop_total
                (Z.to_nat (index - _measuredOffsetIndex cache)) cache
                (_measuredOffsetIndex cache) top index)
      as (top' & cache' & -> & _); try lia.
    by eexists.
Qed.

Lemma computeOffset_frame cache index v cache' :
  computeOffset cache index = Some (v, cache') →
  _sizes cache' = _sizes cache ∧ _defaultItemSize cache' = _defaultItemSize cache ∧
  _length cache' = _length cache.
Proof.
  unfold computeOffset. destruct (_length cache =? 0); [by intros [= <- <-]|].
  case_bool_decide.
  - destruct (aget _ _); [simpl|done]. by intros [= <- <-].
  - destruct (aget _ _) as [top|]; [simpl|done].
    destruct (computeOffset_loop _ _ _ _ _) as [[top' c1]|] eqn:Hloop; [simpl|done].
    intros [= <- <-]. apply computeOffset_loop_frame in Hloop.
    rewrite Hloop. done.
Qed.

Lemma prefixSum_frame cache cache' i :
  _sizes cache' = _sizes cache →
  _defaultItemSize cache' = _defaultItemSize cache →
  prefixSum cache' i = prefixSum cache i.
Proof. unfold prefixSum. by intros -> ->. Qed.

Lemma computeOffset_inv cache index v cache' :
  cache_inv cache → index < _length cache →
  computeOffset cache index = Some (v, cache') →
  cache_inv cache' ∧ (0 ≤ index → (v == prefixSum cache index)%Q).
Proof.
  intros [Hwf Hval] Hidx. pose proof Hwf as [Hlen Hs Ho Hm].
  unfold computeOffset.
  destruct (Z.eqb_spec (_length cache) 0) as [Hz|Hne].
  { intros [= <- <-]. split; [done|lia]. }
  case_bool_decide as Hle.
  - destruct (aget _ _) as [o|] eqn:Hget; [simpl|done]. intros [= <- <-].
    split; [done|]. intros Hpos.
    destruct (Hval index) as (o' & Hget' & Ho'); try lia. congruence.
  - destruct (aget _ _) as [top|] eqn:Htop; [simpl|done].
    destruct (computeOffset_loop _ _ _ _ _) as [[top' c1]|] eqn:Hloop; [simpl|done].
    intros [= <- <-].
    destruct (Hval (_measuredOffsetIndex cache)) as (o' & Hget' & Ho'); try lia.
    assert (o' = top) as -> by congruence.
    destruct (computeOffset_loop_total
                (Z.to_nat (index - _measuredOffsetIndex cache)) cache
                (_measuredOffsetIndex cache) top index)
      as (top2 & c2 & Hloop2 & Hlen2); try lia.
    rewrite Hloop in Hloop2. injection Hloop2 as <- <-.
    pose proof (computeOffset_loop_frame _ _ _ _ _ _ _ Hloop) as Hframe.
    destruct (computeOffset_loop_valid _ _ _ _ _ _ _ Hloop) as [Hsum Hval1];
      try done; try lia.
    split; [|done]. split.
    + rewrite Hframe. constructor; simpl; lia.
    + intros i Hi Hilen. simpl in *. destruct (Hval1 i) as (o & Hget & Hoi); try lia.
      exists o. split; [done|]. by rewrite Hoi.
Qed.

Lemma computeOffset_empty cache index :
  _length cache = 0 → computeOffset cache index = Some (0%Q, cache).
Proof. intros Hlen. unfold computeOffset. by rewrite Hlen. Qed.

(** ** The invariant is kept by every operation *)

Lemma setItemSize_inv cache index size b cache' :
  cache_inv cache → 0 ≤ index < _length cache →
  setItemSize cache index size = Some (b, cache') →
  cache_inv cache'.
Proof.
  intros [Hwf Hval] Hidx. pose proof Hwf as [Hlen Hs Ho Hm].
  unfold setItemSize. rewrite aset_in_range by lia. simpl.
  intros [= _ <-]. split.
  - constructor; simpl; rewrite ?length_insert; unfold min; lia.
  - intros i Hi Hilen. simpl in *. unfold min in Hi.
    destruct (Hval i) as (o & Hget & Hoi); try lia.
    exists o. split; [done|]. rewrite Hoi. unfold prefixSum. simpl.
    by rewrite take_insert_ge by lia.
Qed.

Lemma computeTotalSize_inv cache v cache' :
  cache_inv cache → computeTotalSize cache = Some (v, cache') → cache_inv cache'.
Proof.
  intros Hinv. unfold computeTotalSize.
  destruct (_length cache =? 0); [by intros [= <- <-]|].
  destruct (computeOffset _ _) as [[o c1]|] eqn:Hoff; [simpl|done].
  destruct (getItemSize _ _); [simpl|done]. intros [= <- <-].
  apply computeOffset_inv in Hoff; [tauto|done|lia].
Qed.

Lemma computeRange_inv cache scrollOffset prevStartIndex viewportSize r cache' :
  cache_inv cache →
  computeRange cache scrollOffset prevStartIndex viewportSize = Some (r, cache') →
  cache_inv cache'.
Proof.
  intros Hinv. unfold computeRange, findStartIndexWithOffset.
  destruct (computeOffset _ _) as [[o c1]|] eqn:Hoff; [simpl|done].
  destruct (findIndex c1 _ _); [simpl|done].
  destruct (findIndex c1 _ _); [simpl|done]. intros [= <- <-].
  apply computeOffset_inv in Hoff; [tauto|done|unfold min; lia].
Qed.

(** ** [splice], [appendCache] and [updateCacheLength] in closed form *)

Lemma splice_tail arr start :
  start < 0 →
  splice arr start None =
    (drop (Z.to_nat (Z.of_nat (length arr) + start)) arr,
     take (Z.to_nat (Z.of_nat (length arr) + start)) arr).
Proof.
  intros Hneg. unfold splice.
  destruct (Z.ltb_spec start 0) as [_|]; [|lia].
  set (len := Z.of_nat (length arr)).
  replace (Z.to_nat (Z.max (len + start) 0)) with (Z.to_nat (len + start)) by lia.
  f_equal.
  - apply take_ge. rewrite length_drop. lia.
  - rewrite (drop_ge arr) by lia. by rewrite app_nil_r.
Qed.

Lemma splice_head arr n :
  0 ≤ n →
  splice arr 0 (Some n) = (take (Z.to_nat n) arr, drop (Z.to_nat n) arr).
Proof.
  intros Hn. unfold splice.
  destruct (Z.ltb_spec 0 0) as [|_]; [lia|].
  set (len := Z.of_nat (length arr)).
  replace (Z.to_nat (Z.min 0 len)) with 0%nat by lia.
  replace (Z.min 0 len + Z.min (Z.max n 0) (len - Z.min 0 len))
    with (Z.min n len) by lia.
  replace (Z.min (Z.max n 0) (len - Z.min 0 len)) with (Z.min n len) by lia.
  rewrite drop_0. simpl. destruct (decide (n ≤ len)).
  - by replace (Z.min n len) with n by lia.
  - subst len. rewrite !take_ge, !drop_ge by lia. done.
Qed.

Lemma appendCache_loop_spec n : ∀ i prepend sizes offsets,
  ∃ pushed,
    appendCache_loop n i prepend sizes offsets =
      (if prepend then replicate n UNCACHED ++ sizes
       else sizes ++ replicate n UNCACHED,
       offsets ++ pushed) ∧
    length pushed = n ∧
    (i = 0 → (0 < n)%nat → pushed !! 0%nat = Some 0%Q).
Proof.
  induction n as [|n IH]; intros i prepend sizes offsets; simpl.
  - exists []. destruct prepend; rewrite ?app_nil_r; repeat split; done || lia.
  - destruct (IH (i + 1) prepend
                (if prepend then UNCACHED :: sizes else sizes ++ [UNCACHED])
                (offsets ++ [if i =? 0 then 0%Q else UNCACHED]))
      as (pushed & -> & Hlen & _).
    exists ((if i =? 0 then 0%Q else UNCACHED) :: pushed).
    split; [|split].
    + f_equal.
      * destruct prepend; [|by rewrite <-app_assoc].
        by rewrite app_comm_cons, replicate_cons_app, <-app_assoc.
      * by rewrite <-app_assoc.
    + simpl. lia.
    + intros -> _. done.
Qed.

Lemma updateCacheLength_remove cache length isShift :
  0 ≤ length < _length cache →
  Z.of_nat (List.length (_sizes cache)) = _length cache →
  Z.of_nat (List.length (_offsets cache)) = _length cache →
  updateCacheLength cache length isShift =
    ((fold_left
        (λ acc removed, (acc + effectiveSize (_defaultItemSize cache) removed)%Q)
        (if isShift then take (Z.to_nat (_length cache - length)) (_sizes cache)
         else drop (Z.to_nat length) (_sizes cache)) 0%Q,
      true),
     mkCache (_defaultItemSize cache) length
       (if isShift then drop (Z.to_nat (_length cache - length)) (_sizes cache)
        else take (Z.to_nat length) (_sizes cache))
       (if isShift then 0 else clamp (length - 1) 0 (_measuredOffsetIndex cache))
       (take (Z.to_nat length) (_offsets cache))).
Proof.
  intros Hlen Hs Ho. unfold updateCacheLength.
  destruct (Z.ltb_spec (length - _length cache) 0) as [Hneg|]; [|lia].
  rewrite !splice_tail by done. rewrite splice_head by lia.
  rewrite Hs, Ho.
  replace (- (length - _length cache)) with (_length cache - length) by lia.
  replace (_length cache + (length - _length cache)) with length by lia.
  by destruct isShift.
Qed.

Lemma updateCacheLength_add cache length isShift :
  _length cache ≤ length →
  ∃ pushed,
    updateCacheLength cache length isShift =
      (((_defaultItemSize cache * inject_Z (length - _length cache))%Q, false),
       mkCache (_defaultItemSize cache) length
         (if isShift
          then replicate (Z.to_nat (length - _length cache)) UNCACHED ++ _sizes cache
          else _sizes cache ++ replicate (Z.to_nat (length - _length cache)) UNCACHED)
         (if isShift then 0 else clamp (length - 1) 0 (_measuredOffsetIndex cache))
         (_offsets cache ++ pushed)) ∧
    List.length pushed = Z.to_nat (length - _length cache) ∧
    (_length cache = 0 → 0 < length → pushed !! 0%nat = Some 0%Q).
Proof.
  intros Hlen. unfold updateCacheLength, appendCache.
  destruct (Z.ltb_spec (length - _length cache) 0) as [|_]; [lia|].
  replace (_length cache + (length - _length cache) - _length cache)
    with (length - _length cache) by lia.
  destruct (appendCache_loop_spec (Z.to_nat (length - _length cache))
              (_length cache) isShift (_sizes cache) (_offsets cache))
    as (pushed & -> & Hpushed & Hfirst).
  exists pushed. split; [by destruct isShift|]. split; [done|].
  intros Hz Hpos. apply Hfirst; lia.
Qed.

Lemma aget_take arr n i :
  i < Z.of_nat n → aget (take n arr) i = aget arr i.
Proof.
  intros Hi. unfold aget. case_bool_decide; [|done].
  apply lookup_take_lt. lia.
Qed.

Lemma aget_app_l arr k i :
  i < Z.of_nat (length arr) → aget (arr ++ k) i = aget arr i.
Proof.
  intros Hi. unfold aget. case_bool_decide; [|done].
  apply lookup_app_l. lia.
Qed.

Lemma updateCacheLength_inv cache length isShift r cache' :
  cache_inv cache → 0 ≤ length →
  updateCacheLength cache length isShift = (r, cache') →
  cache_inv cache'.
Proof.
  intros [Hwf Hval] Hpos. pose proof Hwf as [Hlen Hs Ho Hm].
  destruct (decide (length < _length cache)) as [Hlt|Hge].
  - rewrite updateCacheLength_remove by (done || lia). intros [= _ <-].
    destruct isShift; (split; [constructor; simpl;
      rewrite ?length_take, ?length_drop; unfold clamp, min; lia|]);
      intros i Hi Hilen; simpl in *; unfold clamp, min in Hi;
      rewrite aget_take by lia;
      (destruct (Hval i) as (o & Hget & Hoi); [lia|lia|]);
      exists o; (split; [done|]); rewrite Hoi; unfold prefixSum; simpl.
    + by replace i with 0 by lia.
    + rewrite take_take. by rewrite Nat.min_l by lia.
  - destruct (updateCacheLength_add cache length isShift)
      as (pushed & -> & Hpushed & Hfirst); [lia|]. intros [= _ <-].
    split.
    { destruct isShift; constructor; simpl;
        rewrite ?length_app, ?length_replicate; unfold clamp, min; lia. }
    intros i Hi Hilen. simpl in *.
    destruct (decide (_length cache = 0)) as [Hz|Hnz].
    + assert (i = 0) as ->.
      { destruct isShift; unfold clamp, min in Hi; simpl in Hi; lia. }
      exists 0%Q. split; [|by destruct isShift].
      destruct (_offsets cache); [|simpl in Ho; lia].
      apply Hfirst; lia.
    + assert (i ≤ _measuredOffsetIndex cache ∧ i < _length cache) as [Hi1 Hi2].
      { destruct isShift; unfold clamp, min in Hi; simpl in Hi; lia. }
      rewrite aget_app_l by lia.
      destruct (Hval i) as (o & Hget & Hoi); [lia|lia|].
      exists o. split; [done|]. rewrite Hoi. unfold prefixSum.
      destruct isShift; simpl.
      * by replace i with 0 by lia.
      * by rewrite take_app_le by lia.
Qed.

Lemma initCache_inv length itemSize :
  0 ≤ length → cache_inv (initCache length itemSize).
Proof.
  intros Hpos. unfold initCache, appendCache. simpl.
  destruct (appendCache_loop_spec (Z.to_nat (length - 0)) 0 false [] [])
    as (pushed & -> & Hpushed & Hfirst). simpl. split.
  - constructor; simpl; rewrite ?length_replicate; lia.
  - intros i Hi Hilen. simpl in *. assert (i = 0) as -> by lia.
    exists 0%Q. split; [|done]. apply Hfirst; lia.
Qed.

Lemma step_inv cache cache' : step cache cache' → cache_inv cache → cache_inv cache'.
Proof.
  intros Hstep Hinv. destruct Hstep as
    [cache index size b cache' Hidx Hop
    |cache index v cache' Hidx Hop
    |cache v cache' Hop
    |cache scrollOffset prevStartIndex viewportSize r cache' Hop
    |cache length isShift r cache' Hlen Hop].
  - by eapply setItemSize_inv.
  - eapply computeOffset_inv in Hop; [tauto|done|lia].
  - by eapply computeTotalSize_inv.
  - by eapply computeRange_inv.
  - by eapply updateCacheLength_inv.
Qed.

Lemma reachable_inv cache : reachable cache → cache_inv cache.
Proof.
  induction 1 as [length itemSize Hlen|cache cache' _ IH Hstep].
  - by apply initCache_inv.
  - by eapply step_inv.
Qed.

(** ** The scans of [findIndex] *)

Lemma findIndex_forward_spec fuel : ∀ cache i sum distance reads,
  Z.of_nat (length (_sizes cache)) = _length cache →
  0 ≤ i → (Z.to_nat (_length cache - 1 - i) ≤ fuel)%nat →
  ∃ i' reads',
    findIndex_forward fuel cache i sum distance reads = Some (i', reads' ++ reads) ∧
    Forall (λ k, i ≤ k ≤ _length cache - 2) reads' ∧
    i ≤ i' ≤ Z.max i (_length cache - 1).
Proof.
  induction fuel as [|fuel IH]; intros cache i sum distance reads Hs Hi Hfuel;
    simpl; case_bool_decide as Hlt; try lia;
    try (exists i, []; repeat split; (done || lia)).
  destruct (getItemSize_is_Some cache i) as [h ->]; [lia|]. simpl.
  destruct (Qle_bool distance (sum + h)).
  - eexists _, [i]. split; [done|]. split; [constructor; [lia|done]|].
    destruct (Qle_bool distance _); lia.
  - destruct (IH cache (i + 1) (sum + h)%Q distance (i :: reads))
      as (i' & reads' & -> & Hreads & Hi'); try lia.
    exists i', (reads' ++ [i]). split; [by rewrite <-app_assoc|].
    split; [|lia]. apply Forall_app. split.
    + eapply Forall_impl; [done|]. simpl. lia.
    + constructor; [lia|done].
Qed.

Lemma findIndex_backward_spec fuel : ∀ cache i sum distance reads,
  Z.of_nat (length (_sizes cache)) = _length cache →
  i ≤ _length cache → (Z.to_nat i ≤ fuel)%nat →
  ∃ i' reads',
    findIndex_backward fuel cache i sum distance reads = Some (i', reads' ++ reads) ∧
    Forall (λ k, 0 ≤ k < i) reads' ∧
    Z.min i 0 ≤ i' ≤ i.
Proof.
  induction fuel as [|fuel IH]; intros cache i sum distance reads Hs Hi Hfuel;
    simpl; case_bool_decide as Hlt; try lia;
    try (exists i, []; repeat split; (done || lia)).
  destruct (getItemSize_is_Some cache (i - 1)) as [h ->]; [lia|]. simpl.
  destruct (Qle_bool (sum - h) distance).
  - eexists _, [i - 1]. split; [done|]. split; [constructor; [lia|done]|].
    destruct (negb _); lia.
  - destruct (IH cache (i - 1) (sum - h)%Q distance ((i - 1) :: reads))
      as (i' & reads' & -> & Hreads & Hi'); try lia.
    exists i', (reads' ++ [i - 1]). split; [by rewrite <-app_assoc|].
    split; [|lia]. apply Forall_app. split.
    + eapply Forall_impl; [done|]. simpl. lia.
    + constructor; [lia|done].
Qed.

Lemma findIndex_total cache i distance :
  Z.of_nat (length (_sizes cache)) = _length cache →
  0 ≤ i ≤ _length cache - 1 →
  ∃ r, findIndex cache i distance = Some r ∧ 0 ≤ r ≤ _length cache - 1.
Proof.
  intros Hs Hi. unfold findIndex, findIndex_scan.
  destruct (Qle_bool 0 distance).
  - destruct (findIndex_forward_spec (Z.to_nat (_length cache - 1 - i)) cache i
                0%Q distance []) as (i' & reads' & -> & _ & Hi'); try lia.
    simpl. eexists. split; [done|]. unfold clamp, min. lia.
  - destruct (findIndex_backward_spec (Z.to_nat i) cache i 0%Q distance [])
      as (i' & reads' & -> & _ & Hi'); try lia.
    simpl. eexists. split; [done|]. unfold clamp, min. lia.
Qed.

(** ** Every operation returns on a well-formed store *)

Lemma computeOffset_wf cache index v cache' :
  wf cache → 0 ≤ index < _length cache →
  computeOffset cache index = Some (v, cache') → wf cache'.
Proof.
  intros Hwf Hidx. pose proof Hwf as [Hlen Hs Ho Hm]. unfold computeOffset.
  destruct (Z.eqb_spec (_length cache) 0) as [|_]; [lia|].
  case_bool_decide as Hle.
  - destruct (aget _ _); [simpl|done]. by intros [= <- <-].
  - destruct (aget _ _) as [top|]; [simpl|done].
    destruct (computeOffset_loop _ _ _ _ _) as [[top' c1]|] eqn:Hloop; [simpl|done].
    intros [= <- <-].
    destruct (computeOffset_loop_total
                (Z.to_nat (index - _measuredOffsetIndex cache)) cache
                (_measuredOffsetIndex cache) top index)
      as (top2 & c2 & Hloop2 & Hlen2); try lia.
    rewrite Hloop in Hloop2. injection Hloop2 as <- <-.
    rewrite (computeOffset_loop_frame _ _ _ _ _ _ _ Hloop).
    constructor; simpl; lia.
Qed.

Lemma computeRange_total cache scrollOffset prevStartIndex viewportSize :
  wf cache → 0 < _length cache → 0 ≤ prevStartIndex →
  is_Some (computeRange cache scrollOffset prevStartIndex viewportSize).
Proof.
  intros Hwf Hlen Hprev. pose proof Hwf as [_ Hs _ _].
  unfold computeRange, findStartIndexWithOffset.
  set (initialIndex := min prevStartIndex (_length cache - 1)).
  assert (0 ≤ initialIndex < _length cache) as Hidx by (unfold initialIndex, min; lia).
  destruct (computeOffset_total cache initialIndex Hwf Hidx) as [[o c1] Hoff].
  rewrite Hoff. simpl.
  destruct (computeOffset_frame _ _ _ _ Hoff) as (Hs1 & _ & Hl1).
  destruct (findIndex_total c1 initialIndex (scrollOffset - o)%Q)
    as (start & -> & Hstart); [congruence|lia|]. simpl.
  destruct (findIndex_total c1 start viewportSize)
    as (finish & -> & Hfinish); [congruence|lia|]. simpl. by eexists.
Qed.

Lemma setItemSize_total cache index size :
  wf cache → 0 ≤ index < _length cache →
  is_Some (setItemSize cache index size).
Proof.
  intros [_ Hs _ _] Hidx. unfold setItemSize.
  rewrite aset_in_range by lia. by eexists.
Qed.

Lemma computeTotalSize_total cache :
  wf cache → is_Some (computeTotalSize cache).
Proof.
  intros Hwf. pose proof Hwf as [Hlen Hs _ _]. unfold computeTotalSize.
  destruct (Z.eqb_spec (_length cache) 0) as [|Hne]; [by eexists|].
  destruct (computeOffset_total cache (_length cache - 1) Hwf) as [[o c1] Hoff];
    [lia|]. rewrite Hoff. simpl.
  destruct (computeOffset_frame _ _ _ _ Hoff) as (Hs1 & _ & Hl1).
  destruct (getItemSize_is_Some c1 (_length c1 - 1)) as [h ->];
    [rewrite Hs1, Hl1; lia|]. by eexists.
Qed.

Lemma computeOffsets_inv indices : ∀ cache,
  cache_inv cache →
  Forall (λ k, 0 ≤ k < _length cache) indices →
  ∃ cache', computeOffsets cache indices = Some cache' ∧ cache_inv cache' ∧
    _sizes cache' = _sizes cache ∧
    _defaultItemSize cache' = _defaultItemSize cache ∧
    _length cache' = _length cache.
Proof.
  induction indices as [|k indices IH]; intros cache Hinv Hall; simpl.
  - by exists cache.
  - apply Forall_cons in Hall as [Hk Hall].
    destruct (computeOffset_total cache k) as [[o c1] Hoff]; [apply Hinv|done|].
    rewrite Hoff. simpl.
    destruct (computeOffset_frame _ _ _ _ Hoff) as (Hs1 & Hd1 & Hl1).
    destruct (computeOffset_inv _ _ _ _ Hinv (proj2 Hk) Hoff) as [Hinv1 _].
    destruct (IH c1 Hinv1) as (c2 & -> & Hinv2 & Hs2 & Hd2 & Hl2).
    { by rewrite Hl1. }
    exists c2. repeat split; try apply Hinv2; congruence.
Qed.

Lemma measured_cache_reachable : reachable measured_cache.
Proof.
  eapply reachable_step.
  - apply (reachable_init 3 10). lia.
  - apply (step_computeOffset _ 2 20%Q); [simpl; lia|reflexivity].
Qed.

(** * The claims *)

(** C1 (as amended). In every state reachable from [initCache] by
    [setItemSize], [computeOffset], [computeTotalSize], [computeRange] and
    [updateCacheLength], for every index [i] of the store with
    [0 <= i <= measuredOffsetIndex], [offsets[i]] is the sum over [k < i]
    of the effective sizes. *)
Theorem prefix_sum_invariant cache i :
  reachable cache →
  0 ≤ i ≤ _measuredOffsetIndex cache → i < _length cache →
  ∃ o, aget (_offsets cache) i = Some o ∧ (o == prefixSum cache i)%Q.
Proof.
  intros Hreach Hi Hlen. destruct (reachable_inv cache Hreach) as [_ Hval].
  by apply Hval.
Qed.

Lemma prefix_sum_invariant_witness :
  ∃ o, aget (_offsets measured_cache) 2 = Some o ∧
       (o == prefixSum measured_cache 2)%Q.
Proof.
  apply (prefix_sum_invariant measured_cache 2).
  - eapply reachable_step.
    + apply (reachable_init 3 10). lia.
    + apply (step_computeOffset _ 2 20%Q); [simpl; lia|reflexivity].
  - simpl. lia.
  - simpl. lia.
Defined.

(** C1 as stated fails on the empty store: [initCache(0, 10)] is reachable,
    its watermark is 0 and [offsets[0]] is not there. *)
Lemma prefix_sum_invariant_empty_store :
  reachable (initCache 0 10) ∧ ¬ offsets_valid_upto_watermark (initCache 0 10).
Proof.
  split.
  - apply reachable_init. lia.
  - intros Hval. destruct (Hval 0) as (o & Hget & _); [simpl; lia|].
    discriminate Hget.
Qed.

(** Where the cached offsets up to the watermark are the prefix sums of the
    current sizes, invalidation works: after [setItemSize(i, v)] with [i] at
    or below the watermark, [computeOffset(j)] for [i <= j < length], also
    after any run of further offset queries, returns the prefix sum over
    the sizes with [v] at index [i]. *)
Theorem invalidation_correctness cache i v indices j :
  cache_inv cache →
  0 ≤ i < _length cache → i ≤ _measuredOffsetIndex cache →
  Forall (λ k, 0 ≤ k < _length cache) indices →
  i ≤ j < _length cache →
  ∃ b cache1 cache2 o cache3,
    setItemSize cache i v = Some (b, cache1) ∧
    _sizes cache1 = <[Z.to_nat i := v]> (_sizes cache) ∧
    computeOffsets cache1 indices = Some cache2 ∧
    computeOffset cache2 j = Some (o, cache3) ∧
    (o == sumQ (map (effectiveSize (_defaultItemSize cache))
                    (take (Z.to_nat j) (<[Z.to_nat i := v]> (_sizes cache)))))%Q.
Proof.
  intros Hinv Hi Hmoi Hall Hj.
  destruct (setItemSize_total cache i v) as [[b c1] Hset]; [apply Hinv|done|].
  pose proof (setItemSize_inv _ _ _ _ _ Hinv Hi Hset) as Hinv1.
  assert (_sizes c1 = <[Z.to_nat i := v]> (_sizes cache) ∧
          _defaultItemSize c1 = _defaultItemSize cache ∧
          _length c1 = _length cache) as (Hs1 & Hd1 & Hl1).
  { revert Hset. unfold setItemSize.
    rewrite aset_in_range by (destruct Hinv as [[] _]; lia).
    by intros [= _ <-]. }
  destruct (computeOffsets_inv indices c1 Hinv1) as (c2 & Hrun & Hinv2 & Hs2 & Hd2 & Hl2).
  { by rewrite Hl1. }
  destruct (computeOffset_total c2 j) as [[o c3] Hoff]; [apply Hinv2|lia|].
  assert (j < _length c2) as Hj2 by lia.
  destruct (computeOffset_inv _ _ _ _ Hinv2 Hj2 Hoff) as [_ Ho].
  exists b, c1, c2, o, c3. repeat split; try done.
  rewrite Ho by lia. unfold prefixSum. by rewrite Hs2, Hd2, Hs1, Hd1.
Qed.

Lemma invalidation_correctness_witness :
  ∃ b cache1 cache2 o cache3,
    setItemSize measured_cache 1 50 = Some (b, cache1) ∧
    _sizes cache1 = [UNCACHED; 50%Q; UNCACHED] ∧
    computeOffsets cache1 [0] = Some cache2 ∧
    computeOffset cache2 2 = Some (o, cache3) ∧
    (o == 60)%Q.
Proof.
  apply (invalidation_correctness measured_cache 1 50 [0] 2).
  - apply reachable_inv, measured_cache_reachable.
  - simpl. lia.
  - simpl. lia.
  - repeat constructor; simpl; lia.
  - simpl. lia.
Defined.

(** C2. The invalidation fails after [estimateDefaultItemSize]: that
    function changes the effective size of every unmeasured item and
    leaves the watermark where it was.  On the store reached by
    [initCache(3, 10)], [computeOffset(2)], [setItemSize(2, 50)] and
    [estimateDefaultItemSize], [setItemSize(1, 7)] at an index below the
    watermark followed by [computeOffset(2)] returns 17, the stale
    [offsets[1] = 10] plus 7, and not the prefix sum [50 + 7 = 57] of the
    updated sizes. *)
Theorem invalidation_after_estimate :
  ('(_, cache1) ← computeOffset (initCache 3 10) 2;
   '(_, cache2) ← setItemSize cache1 2 50;
   estimateDefaultItemSize cache2) = Some reestimated_cache ∧
  0 ≤ 1 < _length reestimated_cache ∧
  1 ≤ _measuredOffsetIndex reestimated_cache ∧
  ∃ cache1 cache2,
    setItemSize reestimated_cache 1 7 = Some (true, cache1) ∧
    computeOffset cache1 2 = Some (17%Q, cache2) ∧
    (prefixSum cache1 2 == 57)%Q ∧
    ¬ (17 == prefixSum cache1 2)%Q.
Proof.
  split; [reflexivity|]. split; [simpl; lia|]. split; [simpl; lia|].
  eexists _, _. split; [reflexivity|]. split; [reflexivity|].
  split; [reflexivity|]. discriminate.
Qed.

(** C3. On a fresh store of 10 items with default size 10,
    [computeRange(25, 0, 30)] returns [[2, 5]]. *)
Theorem computeRange_example :
  fst <$> computeRange (initCache 10 10) 25 0 30 = Some (2, 5).
Proof. reflexivity. Qed.

(** C4. Removing items from the tail returns the sum of the effective sizes
    of the removed items together with [wasRemoval = true]; five unmeasured
    items of default size 10 cut down to three give [(20, true)]. *)
Theorem shrink_compensation :
  (∀ cache newLength,
     wf cache → 0 ≤ newLength < _length cache →
     ∃ shift cache',
       updateCacheLength cache newLength false = ((shift, true), cache') ∧
       length (drop (Z.to_nat newLength) (_sizes cache))
         = Z.to_nat (_length cache - newLength) ∧
       (shift == sumQ (map (effectiveSize (_defaultItemSize cache))
                           (drop (Z.to_nat newLength) (_sizes cache))))%Q) ∧
  fst (updateCacheLength (initCache 5 10) 3 false) = (20%Q, true).
Proof.
  split; [|reflexivity].
  intros cache newLength [Hlen Hs Ho Hm] Hnew.
  rewrite updateCacheLength_remove by done.
  eexists _, _. split; [done|]. split.
  - rewrite length_drop. lia.
  - rewrite fold_left_sumQ. lra.
Qed.

Lemma shrink_compensation_witness :
  ∃ shift cache',
    updateCacheLength (initCache 5 10) 3 false = ((shift, true), cache') ∧
    length (drop 3 (_sizes (initCache 5 10))) = 2%nat ∧
    (shift == 20)%Q.
Proof.
  apply (proj1 shrink_compensation (initCache 5 10) 3).
  - constructor; simpl; lia.
  - simpl. lia.
Defined.

(** C5. After [updateCacheLength(newLength, isShift = true)] the watermark is
    0, whether the call grew or shrank the store; a following
    [computeOffset] at an index above 0 therefore runs the extension loop
    from index 0, and on a store that satisfied the invariants it returns
    the prefix sum over the shifted sizes. *)
Theorem prepend_invalidation cache newLength :
  let cache' := snd (updateCacheLength cache newLength true) in
  _measuredOffsetIndex cache' = 0 ∧
  (∀ j, 0 < j < newLength →
     computeOffset cache' j =
       top ← aget (_offsets cache') 0;
       '(top', cache'') ← computeOffset_loop (Z.to_nat (j - 0)) cache' 0 top j;
       Some (top', with_measuredOffsetIndex cache'' j)) ∧
  (cache_inv cache → 0 ≤ newLength → ∀ j, 0 < j < newLength →
     ∃ o cache'', computeOffset cache' j = Some (o, cache'') ∧
                  (o == prefixSum cache' j)%Q).
Proof.
  intros cache'.
  assert (_measuredOffsetIndex cache' = 0) as Hzero.
  { unfold cache', updateCacheLength. by repeat case_match. }
  assert (_length cache' = newLength) as Hlen'.
  { unfold cache', updateCacheLength. by repeat case_match. }
  split; [done|]. split.
  - intros j Hj. unfold computeOffset. rewrite Hzero, Hlen'.
    destruct (Z.eqb_spec newLength 0) as [|_]; [lia|].
    by rewrite (bool_decide_eq_false_2 (j ≤ 0)) by lia.
  - intros Hinv Hnew j Hj.
    assert (cache_inv cache') as Hinv'.
    { unfold cache'.
      destruct (updateCacheLength cache newLength true) as [r c1] eqn:Hupd.
      by eapply updateCacheLength_inv. }
    destruct (computeOffset_total cache' j) as [[o c2] Hoff]; [apply Hinv'|lia|].
    assert (j < _length cache') as Hj' by lia.
    destruct (computeOffset_inv _ _ _ _ Hinv' Hj' Hoff) as [_ Ho].
    exists o, c2. split; [done|]. apply Ho. lia.
Qed.

Lemma prepend_invalidation_witness :
  let cache' := snd (updateCacheLength measured_cache 5 true) in
  _measuredOffsetIndex cache' = 0 ∧
  computeOffset cache' 2 =
    Some (20%Q, mkCache 10 5 (replicate 5 UNCACHED) 2
                  [0%Q; 10%Q; 20%Q; UNCACHED; UNCACHED]) ∧
  ∃ o cache'', computeOffset cache' 4 = Some (o, cache'') ∧
               (o == prefixSum cache' 4)%Q.
Proof.
  pose proof (prepend_invalidation measured_cache 5) as (Hzero & Hloop & Hsum).
  split; [exact Hzero|]. split.
  - rewrite Hloop by lia. reflexivity.
  - apply Hsum.
    + apply reachable_inv, measured_cache_reachable.
    + lia.
    + lia.
Defined.

(** C6. On a well-formed store, [computeOffset(i)] for [0 <= i < length]
    returns a value, and a second call right after it returns the same
    value and leaves the whole store, watermark included, as the first call
    left it. *)
Theorem computeOffset_idempotent cache i :
  wf cache → 0 ≤ i < _length cache →
  ∃ v cache1,
    computeOffset cache i = Some (v, cache1) ∧
    computeOffset cache1 i = Some (v, cache1).
Proof.
  intros Hwf Hi.
  destruct (computeOffset_total cache i Hwf Hi) as [[v c1] Hoff].
  exists v, c1. split; [done|].
  revert Hoff. unfold computeOffset at 1.
  destruct (Z.eqb_spec (_length cache) 0) as [Hz|Hnz].
  { intros [= <- <-]. by apply computeOffset_empty. }
  case_bool_decide as Hle.
  - destruct (aget _ _) as [o|] eqn:Hget; [simpl|done]. intros [= <- <-].
    unfold computeOffset. destruct (Z.eqb_spec (_length cache) 0); [done|].
    rewrite bool_decide_eq_true_2 by done. by rewrite Hget.
  - destruct (aget _ _) as [top|]; [simpl|done].
    destruct (computeOffset_loop _ _ _ _ _) as [[top' c2]|] eqn:Hloop; [simpl|done].
    intros [= <- <-].
    pose proof (computeOffset_loop_frame _ _ _ _ _ _ _ Hloop) as Hframe.
    apply computeOffset_loop_last in Hloop; [|lia].
    unfold computeOffset. simpl.
    replace (_length c2) with (_length cache) by (by rewrite Hframe).
    destruct (Z.eqb_spec (_length cache) 0); [done|].
    rewrite bool_decide_eq_true_2 by done. by rewrite Hloop.
Qed.

Lemma computeOffset_idempotent_witness :
  ∃ v cache1,
    computeOffset (initCache 5 10) 3 = Some (v, cache1) ∧
    computeOffset cache1 3 = Some (v, cache1).
Proof.
  apply (computeOffset_idempotent (initCache 5 10) 3).
  - constructor; simpl; lia.
  - simpl. lia.
Defined.

(** ** The modelled [sort] and [median] *)

Lemma insert_sorted_length x l : length (insert_sorted x l) = S (length l).
Proof.
  induction l as [|y l IH]; simpl; [done|].
  destruct (Qle_bool x y); simpl; by rewrite ?IH.
Qed.

Lemma sort_length arr : length (sort arr) = length arr.
Proof.
  induction arr as [|x arr IH]; simpl; [done|].
  by rewrite insert_sorted_length, IH.
Qed.

Lemma insert_sorted_Permutation x l : insert_sorted x l ≡ₚ x :: l.
Proof.
  induction l as [|y l IH]; simpl; [done|].
  destruct (Qle_bool x y); [done|]. rewrite IH. apply Permutation_swap.
Qed.

Lemma sort_Permutation arr : sort arr ≡ₚ arr.
Proof.
  induction arr as [|x arr IH]; simpl; [done|].
  by rewrite insert_sorted_Permutation, IH.
Qed.

Lemma insert_sorted_Sorted x l :
  Sorted Qle l → Sorted Qle (insert_sorted x l).
Proof.
  induction 1 as [|y l Hsorted IH Hhd]; simpl.
  - by repeat constructor.
  - destruct (Qle_bool x y) eqn:Hxy.
    + apply Qle_bool_iff in Hxy. by repeat constructor.
    + assert (y <= x)%Q as Hyx.
      { apply Qnot_lt_le. intros Hlt. apply Qlt_le_weak, Qle_bool_iff in Hlt.
        congruence. }
      constructor; [done|].
      destruct Hhd as [|z l Hyz]; simpl; [by constructor|].
      destruct (Qle_bool x z); by constructor.
Qed.

Lemma sort_Sorted arr : Sorted Qle (sort arr).
Proof.
  induction arr as [|x arr IH]; simpl; [constructor|].
  by apply insert_sorted_Sorted.
Qed.

Lemma median_total arr : arr ≠ [] → is_Some (median arr).
Proof.
  intros Hne. unfold median.
  assert (0 < length arr)%nat as Hpos by (destruct arr; [done|simpl; lia]).
  assert (length arr / 2 < length arr)%nat as Hmid.
  { apply Nat.Div0.div_lt_upper_bound. lia. }
  destruct (Nat.even (length arr)) eqn:Heven.
  - destruct (lookup_lt_is_Some_2 (sort arr) (length arr / 2 - 1)) as [a ->].
    { rewrite sort_length. lia. }
    destruct (lookup_lt_is_Some_2 (sort arr) (length arr / 2)) as [b ->].
    { rewrite sort_length. lia. }
    by eexists.
  - apply lookup_lt_is_Some_2. rewrite sort_length. lia.
Qed.

Lemma forallb_Qeq (c : Q) l :
  forallb (λ s, Qeq_bool s c) l = true ↔ Forall (λ s, (s == c)%Q) l.
Proof.
  induction l as [|x l IH]; simpl.
  - split; [constructor|done].
  - rewrite andb_true_iff, Forall_cons, IH, Qeq_bool_iff. done.
Qed.

(** C7. With at least one measured size, [estimateDefaultItemSize] sets the
    default to the common value when all measured sizes are equal and to
    their median otherwise; sizes 10, 10, 10 give 10, and sizes 10, 1000,
    12 give 12. *)
Theorem estimateDefaultItemSize_policy :
  (∀ cache measured,
     measured = filter (λ s, Qeq_bool s UNCACHED = false) (_sizes cache) →
     measured ≠ [] →
     ((∃ common, Forall (λ s, (s == common)%Q) measured) →
        ∃ d, estimateDefaultItemSize cache = Some (with_defaultItemSize cache d) ∧
             Forall (λ s, (s == d)%Q) measured) ∧
     (¬ (∃ common, Forall (λ s, (s == common)%Q) measured) →
        ∃ d, median measured = Some d ∧
             estimateDefaultItemSize cache = Some (with_defaultItemSize cache d))) ∧
  _defaultItemSize <$> estimateDefaultItemSize fixed_sizes_cache = Some 10%Q ∧
  _defaultItemSize <$> estimateDefaultItemSize variable_sizes_cache = Some 12%Q.
Proof.
  split; [|split; reflexivity].
  intros cache measured Hmeasured Hne. unfold estimateDefaultItemSize.
  rewrite <-Hmeasured. destruct measured as [|m0 rest]; [done|].
  change ((m0 :: rest) !! 0%nat) with (Some m0). cbn [mbind option_bind].
  split.
  - intros [common Hall].
    assert (Forall (λ s, (s == m0)%Q) (m0 :: rest)) as Hall0.
    { pose proof (Forall_inv Hall) as Hm0. simpl in Hm0.
      eapply Forall_impl; [exact Hall|]. simpl. intros s Hs. by rewrite Hs, Hm0. }
    apply forallb_Qeq in Hall0 as Hb. rewrite Hb. by exists m0.
  - intros Hnot.
    destruct (forallb (λ s, Qeq_bool s m0) (m0 :: rest)) eqn:Hb.
    { destruct Hnot. exists m0. by apply forallb_Qeq. }
    destruct (median_total (m0 :: rest)) as [d Hd]; [done|].
    exists d. by rewrite Hd.
Qed.

Lemma estimateDefaultItemSize_policy_witness :
  (∃ d, estimateDefaultItemSize fixed_sizes_cache
          = Some (with_defaultItemSize fixed_sizes_cache d) ∧
        Forall (λ s, (s == d)%Q) [10; 10; 10]%Q) ∧
  (∃ d, median [10; 1000; 12]%Q = Some d ∧
        estimateDefaultItemSize variable_sizes_cache
          = Some (with_defaultItemSize variable_sizes_cache d)).
Proof.
  split.
  - apply (proj1 estimateDefaultItemSize_policy fixed_sizes_cache [10; 10; 10]%Q).
    + reflexivity.
    + discriminate.
    + exists 10%Q. repeat constructor.
  - apply (proj1 estimateDefaultItemSize_policy variable_sizes_cache
                 [10; 1000; 12]%Q).
    + reflexivity.
    + discriminate.
    + intros [common Hall].
      pose proof (Forall_inv Hall) as H1.
      pose proof (Forall_inv (Forall_inv_tail Hall)) as H2.
      simpl in H1, H2. rewrite <-H2 in H1. discriminate H1.
Defined.

(** C8. On a non-empty store and from an index of the store, the forward
    scan of [findIndex] reads (and steps over) indices no greater than
    [length - 2], the backward scan reads indices no smaller than 0, and
    the index returned is in [[0, length - 1]]. *)
Theorem findIndex_scan_bounds cache fromIndex distance :
  Z.of_nat (length (_sizes cache)) = _length cache →
  0 < _length cache → 0 ≤ fromIndex ≤ _length cache - 1 →
  ∃ i' reads,
    findIndex_scan cache fromIndex distance = Some (i', reads) ∧
    findIndex cache fromIndex distance = Some i' ∧
    (Qle_bool 0 distance = true →
       Forall (λ k, fromIndex ≤ k ≤ _length cache - 2) reads) ∧
    (Qle_bool 0 distance = false → Forall (λ k, 0 ≤ k < fromIndex) reads) ∧
    0 ≤ i' ≤ _length cache - 1.
Proof.
  intros Hs Hlen Hfrom. unfold findIndex, findIndex_scan.
  destruct (Qle_bool 0 distance).
  - destruct (findIndex_forward_spec (Z.to_nat (_length cache - 1 - fromIndex))
                cache fromIndex 0%Q distance [])
      as (i' & reads' & -> & Hreads & Hi'); try lia.
    exists i', (reads' ++ []). simpl. rewrite app_nil_r in *.
    repeat split; try done; try lia.
    f_equal. unfold clamp, min. lia.
  - destruct (findIndex_backward_spec (Z.to_nat fromIndex) cache fromIndex
                0%Q distance [])
      as (i' & reads' & -> & Hreads & Hi'); try lia.
    exists i', (reads' ++ []). simpl. rewrite app_nil_r in *.
    repeat split; try done; try lia.
    f_equal. unfold clamp, min. lia.
Qed.

Lemma findIndex_scan_bounds_witness :
  ∃ i' reads,
    findIndex_scan (initCache 10 10) 2 30 = Some (i', reads) ∧
    findIndex (initCache 10 10) 2 30 = Some i' ∧
    (Qle_bool 0 30 = true → Forall (λ k, 2 ≤ k ≤ 10 - 2) reads) ∧
    (Qle_bool 0 30 = false → Forall (λ k, 0 ≤ k < 2) reads) ∧
    0 ≤ i' ≤ 10 - 1.
Proof.
  apply (findIndex_scan_bounds (initCache 10 10) 2 30).
  - reflexivity.
  - simpl. lia.
  - simpl. lia.
Defined.

Lemma getItemSize_positive cache :
  Forall (λ s, (0 < effectiveSize (_defaultItemSize cache) s)%Q) (_sizes cache) →
  ∀ k h, getItemSize cache k = Some h → (0 < h)%Q.
Proof.
  intros Hall k h. unfold getItemSize, aget.
  case_bool_decide; [|done].
  destruct (_sizes cache !! Z.to_nat k) as [s|] eqn:Hs; [simpl|done].
  intros [= <-]. by eapply (Forall_lookup_1 _ _ _ _ Hall).
Qed.

(** C9. On a non-empty store whose effective sizes are all positive,
    [findIndex(fromIndex, 0)] returns [fromIndex] for every index of the
    store. *)
Theorem findIndex_zero_distance cache fromIndex :
  Z.of_nat (length (_sizes cache)) = _length cache →
  0 < _length cache → 0 ≤ fromIndex ≤ _length cache - 1 →
  (∀ k h, getItemSize cache k = Some h → (0 < h)%Q) →
  findIndex cache fromIndex 0 = Some fromIndex.
Proof.
  intros Hs Hlen Hfrom Hpos. unfold findIndex, findIndex_scan.
  change (Qle_bool 0 0) with true. cbv iota.
  destruct (Z.to_nat (_length cache - 1 - fromIndex)) as [|fuel] eqn:Hfuel; simpl.
  - rewrite bool_decide_eq_false_2 by lia. simpl.
    f_equal. unfold clamp, min. lia.
  - rewrite bool_decide_eq_true_2 by lia.
    destruct (getItemSize_is_Some cache fromIndex) as [h Hh]; [lia|].
    rewrite Hh. simpl. apply Hpos in Hh.
    assert (Qle_bool 0 (0 + h) = true) as -> by (apply Qle_bool_iff; lra).
    assert (Qle_bool 0 (0 + h - h / 2) = true) as ->.
    { apply Qle_bool_iff. unfold Qdiv. change (/ 2)%Q with (1 # 2)%Q. lra. }
    simpl. f_equal. unfold clamp, min. lia.
Qed.

Lemma findIndex_zero_distance_witness :
  findIndex (initCache 10 10) 4 0 = Some 4.
Proof.
  apply (findIndex_zero_distance (initCache 10 10) 4).
  - reflexivity.
  - simpl. lia.
  - simpl. lia.
  - apply getItemSize_positive. repeat constructor.
Defined.

(** C10. Growing a well-formed store at the tail leaves the sizes and the
    offsets of the items it had, the watermark and the default size as they
    were, every new size entry is [UNCACHED], and the offsets that were
    valid up to the watermark still are. *)
Theorem tail_growth_frame cache newLength :
  wf cache → _length cache < newLength →
  let cache' := snd (updateCacheLength cache newLength false) in
  take (Z.to_nat (_length cache)) (_sizes cache') = _sizes cache ∧
  take (Z.to_nat (_length cache)) (_offsets cache') = _offsets cache ∧
  _measuredOffsetIndex cache' = _measuredOffsetIndex cache ∧
  _defaultItemSize cache' = _defaultItemSize cache ∧
  drop (Z.to_nat (_length cache)) (_sizes cache')
    = replicate (Z.to_nat (newLength - _length cache)) UNCACHED ∧
  _length cache' = newLength ∧
  (offsets_valid cache (_measuredOffsetIndex cache) →
   offsets_valid cache' (_measuredOffsetIndex cache')).
Proof.
  intros Hwf Hgrow cache'. pose proof Hwf as [Hlen Hs Ho Hm].
  assert (offsets_valid cache (_measuredOffsetIndex cache) →
          offsets_valid cache' (_measuredOffsetIndex cache')) as Hkeep.
  { intros Hval. unfold cache'.
    destruct (updateCacheLength cache newLength false) as [r c1] eqn:Hupd.
    eapply (updateCacheLength_inv cache newLength false r c1); [done|lia|done]. }
  revert Hkeep. unfold cache'.
  destruct (updateCacheLength_add cache newLength false)
    as (pushed & -> & Hpushed & _); [lia|]. simpl. intros Hkeep.
  repeat split; try done.
  - apply take_app_length'. lia.
  - apply take_app_length'. lia.
  - unfold clamp, min. lia.
  - apply drop_app_length'. lia.
Qed.

Lemma tail_growth_frame_witness :
  let cache' := snd (updateCacheLength measured_cache 5 false) in
  take 3 (_sizes cache') = [UNCACHED; UNCACHED; UNCACHED] ∧
  take 3 (_offsets cache') = [0; 10; 20]%Q ∧
  _measuredOffsetIndex cache' = 2 ∧
  _defaultItemSize cache' = 10%Q ∧
  drop 3 (_sizes cache') = [UNCACHED; UNCACHED] ∧
  _length cache' = 5 ∧
  (offsets_valid measured_cache 2 → offsets_valid cache' (_measuredOffsetIndex cache')).
Proof.
  apply (tail_growth_frame measured_cache 5).
  - constructor; simpl; lia.
  - simpl. lia.
Defined.

(** * Further properties of the cache *)

(** ** Offsets *)

Lemma computeOffset_measured cache index v cache' :
  computeOffset cache index = Some (v, cache') → _length cache ≠ 0 →
  _measuredOffsetIndex cache' = Z.max (_measuredOffsetIndex cache) index.
Proof.
  unfold computeOffset. destruct (Z.eqb_spec (_length cache) 0) as [|_]; [done|].
  case_bool_decide as Hle.
  - destruct (aget _ _); [simpl|done]. intros [= <- <-] _. lia.
  - destruct (aget _ _) as [top|]; [simpl|done].
    destruct (computeOffset_loop _ _ _ _ _) as [[top' c1]|]; [simpl|done].
    intros [= <- <-] _. simpl. lia.
Qed.

Lemma computeOffset_value cache index :
  cache_inv cache → 0 ≤ index < _length cache →
  ∃ v cache',
    computeOffset cache index = Some (v, cache') ∧
    (v == prefixSum cache index)%Q ∧
    _sizes cache' = _sizes cache ∧
    _defaultItemSize cache' = _defaultItemSize cache ∧
    _length cache' = _length cache ∧
    cache_inv cache'.
Proof.
  intros Hinv Hidx.
  destruct (computeOffset_total cache index) as [[v c1] Hoff]; [apply Hinv|done|].
  destruct (computeOffset_frame _ _ _ _ Hoff) as (Hs & Hd & Hl).
  destruct (computeOffset_inv _ _ _ _ Hinv (proj2 Hidx) Hoff) as [Hinv1 Hv].
  exists v, c1. repeat split; try done; try apply Hinv1.
  apply Hv. lia.
Qed.

(** X1. On a store that satisfies the invariants, [computeOffset(index)]
    returns the sum of the effective sizes before [index], leaves the
    sizes, the default and the length alone, and moves the watermark to
    [index] when [index] is beyond it and not at all otherwise. *)
Theorem computeOffset_spec cache index :
  cache_inv cache → 0 ≤ index < _length cache →
  ∃ v cache',
    computeOffset cache index = Some (v, cache') ∧
    (v == prefixSum cache index)%Q ∧
    _sizes cache' = _sizes cache ∧
    _defaultItemSize cache' = _defaultItemSize cache ∧
    _length cache' = _length cache ∧
    _measuredOffsetIndex cache' = Z.max (_measuredOffsetIndex cache) index ∧
    cache_inv cache'.
Proof.
  intros Hinv Hidx.
  destruct (computeOffset_value cache index Hinv Hidx)
    as (v & c1 & Hoff & Hv & Hs & Hd & Hl & Hinv1).
  exists v, c1. split; [done|]. split; [done|]. split; [done|].
  split; [done|]. split; [done|]. split; [|done].
  apply (computeOffset_measured _ _ _ _ Hoff). lia.
Qed.

Lemma computeOffset_spec_witness :
  ∃ v cache',
    computeOffset measured_cache 1 = Some (v, cache') ∧
    (v == prefixSum measured_cache 1)%Q ∧
    _sizes cache' = _sizes measured_cache ∧
    _defaultItemSize cache' = _defaultItemSize measured_cache ∧
    _length cache' = _length measured_cache ∧
    _measuredOffsetIndex cache' = Z.max 2 1 ∧
    cache_inv cache'.
Proof.
  apply (computeOffset_spec measured_cache 1).
  - apply reachable_inv, measured_cache_reachable.
  - simpl. lia.
Defined.

Lemma sumQ_nonneg l : Forall (λ x, (0 <= x)%Q) l → (0 <= sumQ l)%Q.
Proof.
  induction 1 as [|x l Hx _ IH]; simpl; [lra|]. lra.
Qed.

Lemma prefixSum_mono cache a b :
  Forall (λ s, (0 <= effectiveSize (_defaultItemSize cache) s)%Q) (_sizes cache) →
  0 ≤ a ≤ b → (prefixSum cache a <= prefixSum cache b)%Q.
Proof.
  intros Hall Hab. unfold prefixSum.
  replace (Z.to_nat b) with (Z.to_nat a + Z.to_nat (b - a))%nat by lia.
  rewrite <-take_take_drop, map_app, sumQ_app.
  assert (0 <= sumQ (map (effectiveSize (_defaultItemSize cache))
                         (take (Z.to_nat (b - a)) (drop (Z.to_nat a) (_sizes cache)))))%Q.
  { apply sumQ_nonneg, Forall_map, Forall_take, Forall_drop, Hall. }
  lra.
Qed.

(** X2. With no negative effective size, offsets grow with the index: for
    [i <= j], [computeOffset(i)] is at most [computeOffset(j)], whatever
    the watermark was before the two queries. *)
Theorem computeOffset_monotone cache i j :
  cache_inv cache →
  Forall (λ s, (0 <= effectiveSize (_defaultItemSize cache) s)%Q) (_sizes cache) →
  0 ≤ i ≤ j → j < _length cache →
  ∃ oi cache1 oj cache2,
    computeOffset cache i = Some (oi, cache1) ∧
    computeOffset cache1 j = Some (oj, cache2) ∧
    (oi <= oj)%Q.
Proof.
  intros Hinv Hall Hij Hj.
  destruct (computeOffset_value cache i Hinv)
    as (oi & c1 & Hoi & Hvi & Hs1 & Hd1 & Hl1 & Hinv1); [lia|].
  destruct (computeOffset_value c1 j Hinv1) as (oj & c2 & Hoj & Hvj & _); [lia|].
  exists oi, c1, oj, c2. repeat split; try done.
  rewrite Hvi, Hvj, (prefixSum_frame cache c1 j Hs1 Hd1).
  by apply prefixSum_mono.
Qed.

Lemma computeOffset_monotone_witness :
  ∃ oi cache1 oj cache2,
    computeOffset (initCache 5 10) 1 = Some (oi, cache1) ∧
    computeOffset cache1 4 = Some (oj, cache2) ∧
    (oi <= oj)%Q.
Proof.
  apply (computeOffset_monotone (initCache 5 10) 1 4).
  - apply initCache_inv. lia.
  - repeat constructor; discriminate.
  - lia.
  - simpl. lia.
Defined.

(** ** Total size *)

Lemma prefixSum_length cache :
  _length cache = Z.of_nat (length (_sizes cache)) →
  prefixSum cache (_length cache) = totalSize cache.
Proof.
  intros Hlen. unfold prefixSum, totalSize. by rewrite take_ge by lia.
Qed.

Lemma computeTotalSize_value cache :
  cache_inv cache →
  ∃ v cache',
    computeTotalSize cache = Some (v, cache') ∧ (v == totalSize cache)%Q.
Proof.
  intros Hinv. pose proof Hinv as [[Hlen Hs Ho Hm] _]. unfold computeTotalSize.
  destruct (Z.eqb_spec (_length cache) 0) as [Hz|Hnz].
  - exists 0%Q, cache. split; [done|].
    unfold totalSize. destruct (_sizes cache); [done|simpl in Hs; lia].
  - destruct (computeOffset_value cache (_length cache - 1) Hinv)
      as (o & c1 & -> & Hv & Hs1 & Hd1 & Hl1 & Hinv1); [lia|]. simpl.
    destruct (getItemSize_is_Some c1 (_length c1 - 1)) as [h Hh];
      [rewrite Hs1, Hl1; lia|].
    rewrite Hh. simpl. exists (o + h)%Q, c1. split; [done|].
    assert (getItemSize cache (_length cache - 1) = Some h) as Hh'.
    { revert Hh. unfold getItemSize. by rewrite Hs1, Hd1, Hl1. }
    pose proof (prefixSum_succ cache (_length cache - 1) h) as Hsucc.
    replace (_length cache - 1 + 1) with (_length cache) in Hsucc by lia.
    rewrite <-prefixSum_length, Hsucc, Hv by (done || lia). reflexivity.
Qed.

Lemma computeTotalSize_frame cache v cache' :
  computeTotalSize cache = Some (v, cache') →
  _sizes cache' = _sizes cache ∧ _defaultItemSize cache' = _defaultItemSize cache ∧
  _length cache' = _length cache.
Proof.
  unfold computeTotalSize. destruct (_length cache =? 0); [by intros [= <- <-]|].
  destruct (computeOffset _ _) as [[o c1]|] eqn:Hoff; [simpl|done].
  destruct (getItemSize _ _); [simpl|done]. intros [= <- <-].
  by apply computeOffset_frame in Hoff.
Qed.

(** X3. On a store that satisfies the invariants, [computeTotalSize]
    returns the sum of the effective sizes of all items (0 on the empty
    store) and keeps the sizes and the invariants. *)
Theorem computeTotalSize_spec cache :
  cache_inv cache →
  ∃ v cache',
    computeTotalSize cache = Some (v, cache') ∧
    (v == totalSize cache)%Q ∧
    _sizes cache' = _sizes cache ∧
    _defaultItemSize cache' = _defaultItemSize cache ∧
    _length cache' = _length cache ∧
    cache_inv cache'.
Proof.
  intros Hinv.
  destruct (computeTotalSize_value cache Hinv) as (v & c1 & Htotal & Hv).
  destruct (computeTotalSize_frame _ _ _ Htotal) as (Hs & Hd & Hl).
  exists v, c1. split; [done|]. split; [done|]. split; [done|].
  split; [done|]. split; [done|]. by eapply computeTotalSize_inv.
Qed.

Lemma computeTotalSize_spec_witness :
  ∃ v cache',
    computeTotalSize measured_cache = Some (v, cache') ∧
    (v == 30)%Q ∧
    _sizes cache' = _sizes measured_cache ∧
    _defaultItemSize cache' = _defaultItemSize measured_cache ∧
    _length cache' = _length measured_cache ∧
    cache_inv cache'.
Proof.
  apply (computeTotalSize_spec measured_cache).
  apply reachable_inv, measured_cache_reachable.
Defined.

(** ** A fresh store *)

Lemma initCache_shape length itemSize :
  ∃ offsets,
    initCache length itemSize =
      mkCache itemSize length (replicate (Z.to_nat length) UNCACHED) 0 offsets.
Proof.
  unfold initCache, appendCache. simpl.
  destruct (appendCache_loop_spec (Z.to_nat (length - 0)) 0 false [] [])
    as (pushed & -> & _). simpl. rewrite Z.sub_0_r. by eexists.
Qed.

(** X4. [initCache(length, itemSize)] gives a store of [length] unmeasured
    items: every entry of the sizes is [UNCACHED], every item has the size
    [itemSize], the watermark is 0 and the store satisfies the
    invariants. *)
Theorem initCache_fresh length itemSize :
  0 ≤ length →
  _length (initCache length itemSize) = length ∧
  _defaultItemSize (initCache length itemSize) = itemSize ∧
  _measuredOffsetIndex (initCache length itemSize) = 0 ∧
  (∀ k, 0 ≤ k < length →
     aget (_sizes (initCache length itemSize)) k = Some UNCACHED ∧
     getItemSize (initCache length itemSize) k = Some itemSize) ∧
  cache_inv (initCache length itemSize).
Proof.
  intros Hlen. pose proof (initCache_inv length itemSize Hlen) as Hinv.
  revert Hinv. destruct (initCache_shape length itemSize) as [offsets ->].
  intros Hinv. simpl. split; [done|]. split; [done|]. split; [done|].
  split; [|done].
  intros k Hk. unfold getItemSize, aget. simpl.
  rewrite bool_decide_eq_true_2 by lia.
  rewrite lookup_replicate_2 by lia. done.
Qed.

Lemma initCache_fresh_witness :
  _length (initCache 4 25) = 4 ∧
  _defaultItemSize (initCache 4 25) = 25%Q ∧
  _measuredOffsetIndex (initCache 4 25) = 0 ∧
  (∀ k, 0 ≤ k < 4 →
     aget (_sizes (initCache 4 25)) k = Some UNCACHED ∧
     getItemSize (initCache 4 25) k = Some 25%Q) ∧
  cache_inv (initCache 4 25).
Proof. apply (initCache_fresh 4 25). lia. Defined.

(** ** Measurements *)

(** X5. [setItemSize(index, size)] at an index of the store reports whether
    the entry was unmeasured before, makes [getItemSize(index)] return
    [size] (the default when [size] is [UNCACHED]), leaves the size of
    every other item and the offsets alone, and lowers the watermark to
    [index] when it was above it. *)
Theorem setItemSize_getItemSize cache index size :
  0 ≤ index < Z.of_nat (length (_sizes cache)) →
  ∃ old cache',
    aget (_sizes cache) index = Some old ∧
    setItemSize cache index size = Some (Qeq_bool old UNCACHED, cache') ∧
    getItemSize cache' index = Some (effectiveSize (_defaultItemSize cache) size) ∧
    (∀ j, j ≠ index → getItemSize cache' j = getItemSize cache j) ∧
    _measuredOffsetIndex cache' = Z.min index (_measuredOffsetIndex cache) ∧
    _offsets cache' = _offsets cache ∧
    _length cache' = _length cache.
Proof.
  intros Hidx. destruct (aget_is_Some (_sizes cache) index Hidx) as [old Hold].
  exists old. eexists. split; [done|]. unfold setItemSize.
  rewrite Hold, aset_in_range by done. simpl. split; [done|].
  repeat split; try done.
  - unfold getItemSize, aget. simpl. rewrite bool_decide_eq_true_2 by lia.
    rewrite list_lookup_insert_eq by lia. done.
  - intros j Hj. unfold getItemSize, aget. simpl. case_bool_decide; [|done].
    rewrite list_lookup_insert_ne by lia. done.
Qed.

Lemma setItemSize_getItemSize_witness :
  ∃ old cache',
    aget (_sizes measured_cache) 1 = Some old ∧
    setItemSize measured_cache 1 35 = Some (Qeq_bool old UNCACHED, cache') ∧
    getItemSize cache' 1 = Some 35%Q ∧
    (∀ j, j ≠ 1 → getItemSize cache' j = getItemSize measured_cache j) ∧
    _measuredOffsetIndex cache' = Z.min 1 2 ∧
    _offsets cache' = _offsets measured_cache ∧
    _length cache' = _length measured_cache.
Proof. apply (setItemSize_getItemSize measured_cache 1 35). simpl. lia. Defined.

(** X6. For a range that starts at a non-negative index,
    [hasUnmeasuredItemsInRange(start, end)] is true exactly when some index
    [k] of the store with [start <= k <= end] holds [UNCACHED]; it is false
    on an empty range and ignores the part of the range beyond the store. *)
Theorem hasUnmeasuredItemsInRange_spec cache startIndex endIndex :
  0 ≤ startIndex → -1 ≤ endIndex →
  hasUnmeasuredItemsInRange cache startIndex endIndex = true ↔
  ∃ k s, startIndex ≤ k ≤ endIndex ∧ aget (_sizes cache) k = Some s ∧
         Qeq_bool s UNCACHED = true.
Proof.
  intros Hstart Hend. unfold hasUnmeasuredItemsInRange.
  destruct (Z.ltb_spec startIndex 0) as [|_]; [lia|].
  destruct (Z.ltb_spec (endIndex + 1) 0) as [|_]; [lia|].
  set (len := Z.of_nat (length (_sizes cache))).
  rewrite existsb_exists. split.
  - intros (s & Hin & Hs). apply list_elem_of_In, list_elem_of_lookup in Hin as [n Hn].
    apply lookup_take_Some in Hn as [Hn Hlt]. rewrite lookup_drop in Hn.
    pose proof (lookup_lt_Some _ _ _ Hn) as Hbound.
    exists (Z.of_nat (Z.to_nat (Z.min startIndex len) + n)), s.
    split; [subst len; lia|]. split; [|done].
    unfold aget. rewrite bool_decide_eq_true_2 by lia. by rewrite Nat2Z.id.
  - intros (k & s & Hk & Hget & Hs). exists s. split; [|done].
    pose proof (aget_Some _ _ _ Hget) as Hrange. fold len in Hrange.
    unfold aget in Hget. rewrite bool_decide_eq_true_2 in Hget by lia.
    apply list_elem_of_In, list_elem_of_lookup.
    exists (Z.to_nat k - Z.to_nat (Z.min startIndex len))%nat.
    apply lookup_take_Some. split; [|lia].
    rewrite lookup_drop.
    by replace (Z.to_nat (Z.min startIndex len) +
                (Z.to_nat k - Z.to_nat (Z.min startIndex len)))%nat
      with (Z.to_nat k) by lia.
Qed.

Lemma hasUnmeasuredItemsInRange_spec_witness :
  hasUnmeasuredItemsInRange measured_cache 1 7 = true ↔
  ∃ k s, 1 ≤ k ≤ 7 ∧ aget (_sizes measured_cache) k = Some s ∧
         Qeq_bool s UNCACHED = true.
Proof. apply (hasUnmeasuredItemsInRange_spec measured_cache 1 7); lia. Defined.

(** ** Well-formed stores *)

(** X7. Every store reachable from [initCache] by the mutating operations
    is well-formed: both arrays have [_length] entries and the watermark is
    between 0 and [max(_length - 1, 0)]; in particular it is never
    negative, also after the store has been emptied. *)
Theorem reachable_wf cache :
  reachable cache → wf cache.
Proof. intros Hreach. by destruct (reachable_inv cache Hreach). Qed.

Lemma reachable_wf_witness : wf measured_cache.
Proof. apply (reachable_wf measured_cache), measured_cache_reachable. Defined.

(** ** Length changes *)

Lemma fold_left_map_plus (f : Q → Q) l acc :
  fold_left (λ a x, (a + f x)%Q) l acc = fold_left Qplus (map f l) acc.
Proof. revert acc. induction l as [|x l IH]; intros acc; simpl; [done|apply IH]. Qed.

(** X8. Removing items at the head returns as [shift] the effective sizes
    of the removed items, the first [length - newLength] of the store,
    added from left to right starting at 0, together with
    [wasRemoval = true]; the sizes that are left are the former tail and
    the watermark is 0. *)
Theorem prepend_shrink_compensation cache newLength :
  wf cache → 0 ≤ newLength < _length cache →
  ∃ shift cache',
    updateCacheLength cache newLength true = ((shift, true), cache') ∧
    shift = fold_left Qplus
              (map (effectiveSize (_defaultItemSize cache))
                   (take (Z.to_nat (_length cache - newLength)) (_sizes cache)))
              0%Q ∧
    _sizes cache' = drop (Z.to_nat (_length cache - newLength)) (_sizes cache) ∧
    _length cache' = newLength ∧
    _measuredOffsetIndex cache' = 0.
Proof.
  intros [Hlen Hs Ho Hm] Hnew.
  rewrite updateCacheLength_remove by done.
  eexists _, _. split; [done|]. simpl. split; [|done].
  apply fold_left_map_plus.
Qed.

Lemma prepend_shrink_compensation_witness :
  ∃ shift cache',
    updateCacheLength variable_sizes_cache 1 true = ((shift, true), cache') ∧
    shift = 1010%Q ∧
    _sizes cache' = [12%Q] ∧
    _length cache' = 1 ∧
    _measuredOffsetIndex cache' = 0.
Proof.
  apply (prepend_shrink_compensation variable_sizes_cache 1).
  - constructor; simpl; lia.
  - simpl. lia.
Defined.

(** X9. A length change at the head moves every surviving item by the
    difference [d = newLength - length]: item [j - d] of the old store is
    item [j] of the new one, and when items were added the [d] new items at
    the head are unmeasured. *)
Theorem prepend_shifts_items cache newLength :
  wf cache → 0 ≤ newLength →
  (∀ j, 0 ≤ j → 0 ≤ j - (newLength - _length cache) →
     getItemSize (snd (updateCacheLength cache newLength true)) j
       = getItemSize cache (j - (newLength - _length cache))) ∧
  (∀ j, 0 ≤ j < newLength - _length cache →
     aget (_sizes (snd (updateCacheLength cache newLength true))) j
       = Some UNCACHED).
Proof.
  intros [Hlen Hs Ho Hm] Hnew.
  destruct (decide (newLength < _length cache)) as [Hlt|Hge].
  - rewrite updateCacheLength_remove by (done || lia). simpl.
    split; [|lia]. intros j Hj Hjd. unfold getItemSize, aget. simpl.
    rewrite !bool_decide_eq_true_2 by lia. rewrite lookup_drop.
    by replace (Z.to_nat (_length cache - newLength) + Z.to_nat j)%nat
      with (Z.to_nat (j - (newLength - _length cache))) by lia.
  - destruct (updateCacheLength_add cache newLength true)
      as (pushed & -> & _); [lia|]. simpl. split.
    + intros j Hj Hjd. unfold getItemSize, aget. simpl.
      rewrite !bool_decide_eq_true_2 by lia.
      rewrite lookup_app_r by (rewrite length_replicate; lia).
      rewrite length_replicate.
      by replace (Z.to_nat j - Z.to_nat (newLength - _length cache))%nat
        with (Z.to_nat (j - (newLength - _length cache))) by lia.
    + intros j Hj. unfold aget. rewrite bool_decide_eq_true_2 by lia.
      rewrite lookup_app_l by (rewrite length_replicate; lia).
      apply lookup_replicate_2. lia.
Qed.

Lemma prepend_shifts_items_witness :
  (∀ j, 0 ≤ j → 0 ≤ j - (5 - 3) →
     getItemSize (snd (updateCacheLength fixed_sizes_cache 5 true)) j
       = getItemSize fixed_sizes_cache (j - (5 - 3))) ∧
  (∀ j, 0 ≤ j < 5 - 3 →
     aget (_sizes (snd (updateCacheLength fixed_sizes_cache 5 true))) j
       = Some UNCACHED).
Proof.
  apply (prepend_shifts_items fixed_sizes_cache 5).
  - constructor; simpl; lia.
  - lia.
Defined.

(** X10. Adding items at the tail and cutting the store back to its former
    length gives the store back as it was: sizes, cached offsets,
    watermark, default size and length. *)
Theorem append_truncate_roundtrip cache newLength :
  wf cache → _length cache ≤ newLength →
  ∃ shift1 cache1 shift2,
    updateCacheLength cache newLength false = ((shift1, false), cache1) ∧
    updateCacheLength cache1 (_length cache) false
      = ((shift2, bool_decide (_length cache < newLength)), cache).
Proof.
  intros [Hlen Hs Ho Hm] Hgrow.
  destruct (updateCacheLength_add cache newLength false)
    as (pushed & Hupd & Hpushed & _); [done|].
  assert (clamp (newLength - 1) 0 (_measuredOffsetIndex cache)
          = _measuredOffsetIndex cache) as Hclamp by (unfold clamp, min; lia).
  rewrite Hclamp in Hupd. rewrite Hupd. case_bool_decide as Hlt.
  - eexists _, _. eexists. split; [done|].
    rewrite updateCacheLength_remove; simpl;
      rewrite ?length_app, ?length_replicate; try lia.
    rewrite !take_app_length', drop_app_length' by lia.
    assert (clamp (_length cache - 1) 0 (_measuredOffsetIndex cache)
            = _measuredOffsetIndex cache) as -> by (unfold clamp, min; lia).
    apply pair_equal_spec. split; [reflexivity|by destruct cache].
  - assert (newLength = _length cache) as Heq by lia. subst newLength.
    rewrite Z.sub_diag in *. simpl in Hpushed. destruct pushed; [|done].
    simpl. rewrite !app_nil_r in *.
    assert (mkCache (_defaultItemSize cache) (_length cache) (_sizes cache)
              (_measuredOffsetIndex cache) (_offsets cache) = cache) as Heta
      by (by destruct cache).
    rewrite Heta in *. eexists _, _. eexists. split; [done|].
    by rewrite Hupd.
Qed.

Lemma append_truncate_roundtrip_witness :
  ∃ shift1 cache1 shift2,
    updateCacheLength measured_cache 6 false = ((shift1, false), cache1) ∧
    updateCacheLength cache1 (_length measured_cache) false
      = ((shift2, bool_decide (_length measured_cache < 6)), measured_cache).
Proof.
  apply (append_truncate_roundtrip measured_cache 6).
  - constructor; simpl; lia.
  - simpl. lia.
Defined.

(** ** What [findIndex] finds *)

Lemma Qle_bool_false (x y : Q) : Qle_bool x y = false → (y < x)%Q.
Proof.
  intros Hb. apply Qnot_le_lt. intros Hle. apply Qle_bool_iff in Hle. congruence.
Qed.

Lemma getItemSize_nonneg cache :
  Forall (λ s, (0 <= effectiveSize (_defaultItemSize cache) s)%Q) (_sizes cache) →
  ∀ k h, getItemSize cache k = Some h → (0 <= h)%Q.
Proof.
  intros Hall k h. unfold getItemSize, aget.
  case_bool_decide; [|done].
  destruct (_sizes cache !! Z.to_nat k) as [s|] eqn:Hs; [simpl|done].
  intros [= <-]. by eapply (Forall_lookup_1 _ _ _ _ Hall).
Qed.

Lemma forwardSum_start cache from : forwardSum cache from from = 0%Q.
Proof. unfold forwardSum. by rewrite Z.sub_diag. Qed.

Lemma forwardSum_succ cache from m h :
  0 ≤ from ≤ m → getItemSize cache m = Some h →
  forwardSum cache from (m + 1) = (forwardSum cache from m + h)%Q.
Proof.
  intros Hm. unfold getItemSize, aget, forwardSum.
  rewrite bool_decide_eq_true_2 by lia.
  destruct (_sizes cache !! Z.to_nat m) as [s|] eqn:Hs; [simpl|done].
  intros [= <-].
  replace (Z.to_nat (m + 1 - from)) with (S (Z.to_nat (m - from))) by lia.
  rewrite (take_S_r _ _ s), fold_left_app; [done|].
  rewrite lookup_drop. by replace (Z.to_nat from + Z.to_nat (m - from))%nat
    with (Z.to_nat m) by lia.
Qed.

Lemma backwardSum_start cache from : backwardSum cache from from = 0%Q.
Proof. unfold backwardSum. by rewrite Z.sub_diag. Qed.

Lemma backwardSum_pred cache from m h :
  0 < m ≤ from → getItemSize cache (m - 1) = Some h →
  backwardSum cache from (m - 1) = (backwardSum cache from m - h)%Q.
Proof.
  intros Hm. unfold getItemSize, aget, backwardSum.
  rewrite bool_decide_eq_true_2 by lia.
  destruct (_sizes cache !! Z.to_nat (m - 1)) as [s|] eqn:Hs; [simpl|done].
  intros [= <-].
  replace (Z.to_nat (from - (m - 1))) with (S (Z.to_nat (from - m))) by lia.
  rewrite (drop_S _ s _ Hs).
  replace (S (Z.to_nat (m - 1))) with (Z.to_nat m) by lia.
  simpl. by rewrite fold_left_app.
Qed.

Lemma findIndex_forward_brackets fuel :
  ∀ cache from i sum distance reads r reads',
  Z.of_nat (length (_sizes cache)) = _length cache →
  Forall (λ s, (0 <= effectiveSize (_defaultItemSize cache) s)%Q) (_sizes cache) →
  0 ≤ from ≤ i → i ≤ _length cache - 1 →
  (sum == forwardSum cache from i)%Q →
  (∀ m, from < m ≤ i → (forwardSum cache from m < distance)%Q) →
  findIndex_forward fuel cache i sum distance reads = Some (r, reads') →
  i ≤ r ≤ _length cache - 1 ∧
  (∀ m, from < m ≤ r - 1 → (forwardSum cache from m < distance)%Q) ∧
  (r < _length cache - 1 → (distance <= forwardSum cache from (r + 1))%Q).
Proof.
  induction fuel as [|fuel IH];
    intros cache from i sum distance reads r reads' Hs Hnn Hfrom Hi Hsum Hbelow;
    simpl; case_bool_decide as Hlt; try done;
    try (intros [= <- <-]; split; [lia|]; split; [|lia];
         intros m Hm; apply Hbelow; lia).
  destruct (getItemSize cache i) as [h|] eqn:Hh; [simpl|done].
  pose proof (forwardSum_succ cache from i h Hfrom Hh) as Hsucc.
  destruct (Qle_bool distance (sum + h)) eqn:Hreach.
  - apply Qle_bool_iff in Hreach.
    destruct (Qle_bool distance (sum + h - h / 2)); intros [= <- <-].
    + replace (i + 1 - 1) with i by lia. split; [lia|]. split.
      * intros m Hm. apply Hbelow. lia.
      * intros _. rewrite Hsucc. lra.
    + split; [lia|]. split.
      * intros m Hm. apply Hbelow. lia.
      * intros Hnext.
        destruct (getItemSize_is_Some cache (i + 1)) as [h' Hh']; [lia|].
        pose proof (getItemSize_nonneg cache Hnn _ _ Hh') as Hh'nn.
        rewrite (forwardSum_succ cache from (i + 1) h') by (done || lia).
        rewrite Hsucc. lra.
  - apply Qle_bool_false in Hreach. intros Hrec.
    apply (IH _ from) in Hrec; try done; try lia.
    + destruct Hrec as (Hr & Hlow & Hup). split; [lia|done].
    + rewrite Hsucc. lra.
    + intros m Hm. destruct (decide (m = i + 1)) as [->|Hne].
      * rewrite Hsucc. lra.
      * apply Hbelow. lia.
Qed.

Lemma findIndex_backward_brackets fuel :
  ∀ cache from i sum distance reads r reads',
  Z.of_nat (length (_sizes cache)) = _length cache →
  Forall (λ s, (0 <= effectiveSize (_defaultItemSize cache) s)%Q) (_sizes cache) →
  0 ≤ i ≤ from → from ≤ _length cache - 1 →
  (sum == backwardSum cache from i)%Q →
  (∀ m, i ≤ m < from → (distance < backwardSum cache from m)%Q) →
  findIndex_backward fuel cache i sum distance reads = Some (r, reads') →
  0 ≤ r ≤ i ∧
  (∀ m, r + 1 ≤ m < from → (distance < backwardSum cache from m)%Q) ∧
  (0 < r → (backwardSum cache from (r - 1) <= distance)%Q).
Proof.
  induction fuel as [|fuel IH];
    intros cache from i sum distance reads r reads' Hs Hnn Hi Hfrom Hsum Habove;
    simpl; case_bool_decide as Hlt; try done;
    try (intros [= <- <-]; split; [lia|]; split; [|lia];
         intros m Hm; apply Habove; lia).
  destruct (getItemSize cache (i - 1)) as [h|] eqn:Hh; [simpl|done].
  pose proof (backwardSum_pred cache from i h ltac:(lia) Hh) as Hpred.
  destruct (Qle_bool (sum - h) distance) eqn:Hreach.
  - apply Qle_bool_iff in Hreach.
    destruct (Qle_bool distance (sum - h + h / 2)); simpl; intros [= <- <-].
    + split; [lia|]. split.
      * intros m Hm. apply Habove. lia.
      * intros Hprev.
        destruct (getItemSize_is_Some cache (i - 1 - 1)) as [h' Hh']; [lia|].
        pose proof (getItemSize_nonneg cache Hnn _ _ Hh') as Hh'nn.
        rewrite (backwardSum_pred cache from (i - 1) h') by (done || lia).
        rewrite Hpred. lra.
    + replace (i - 1 + 1) with i by lia. split; [lia|]. split.
      * intros m Hm. apply Habove. lia.
      * intros _. rewrite Hpred. lra.
  - apply Qle_bool_false in Hreach. intros Hrec.
    apply (IH _ from) in Hrec; try done; try lia.
    + destruct Hrec as (Hr & Hlow & Hup). split; [lia|done].
    + rewrite Hpred. lra.
    + intros m Hm. destruct (decide (m = i - 1)) as [->|Hne].
      * rewrite Hpred. lra.
      * apply Habove. lia.
Qed.

(** X11. With no negative size, [findIndex(fromIndex, distance)] stops
    within one item of the point at [distance] from [fromIndex], measured
    with the running sums of the scan itself.  Forward ([distance >= 0]):
    the result [r] is not before [fromIndex], the sizes of the items from
    [fromIndex] up to any item before [r - 1] add up to less than
    [distance], and unless [r] is the last index the sizes of the items
    [fromIndex .. r] add up to at least [distance].  Backward
    ([distance < 0]): symmetrically with the sizes subtracted from
    [fromIndex - 1] downwards. *)
Theorem findIndex_brackets cache fromIndex distance :
  Z.of_nat (length (_sizes cache)) = _length cache →
  Forall (λ s, (0 <= effectiveSize (_defaultItemSize cache) s)%Q) (_sizes cache) →
  0 ≤ fromIndex ≤ _length cache - 1 →
  ∃ r, findIndex cache fromIndex distance = Some r ∧
    ((0 <= distance)%Q →
       fromIndex ≤ r ≤ _length cache - 1 ∧
       (∀ m, fromIndex < m ≤ r - 1 →
          (forwardSum cache fromIndex m < distance)%Q) ∧
       (r < _length cache - 1 →
          (distance <= forwardSum cache fromIndex (r + 1))%Q)) ∧
    ((distance < 0)%Q →
       0 ≤ r ≤ fromIndex ∧
       (∀ m, r + 1 ≤ m < fromIndex →
          (distance < backwardSum cache fromIndex m)%Q) ∧
       (0 < r → (backwardSum cache fromIndex (r - 1) <= distance)%Q)).
Proof.
  intros Hs Hnn Hfrom. unfold findIndex, findIndex_scan.
  destruct (Qle_bool 0 distance) eqn:Hdir.
  - apply Qle_bool_iff in Hdir.
    destruct (findIndex_forward_spec (Z.to_nat (_length cache - 1 - fromIndex))
                cache fromIndex 0%Q distance [])
      as (i' & reads' & Hscan & _ & _); try lia.
    rewrite Hscan. simpl.
    apply (findIndex_forward_brackets _ _ fromIndex) in Hscan; try done; try lia.
    + exists i'. split; [|split; [done|lra]].
      f_equal. unfold clamp, min. lia.
    + by rewrite forwardSum_start.
  - apply Qle_bool_false in Hdir.
    destruct (findIndex_backward_spec (Z.to_nat fromIndex) cache fromIndex
                0%Q distance [])
      as (i' & reads' & Hscan & _ & _); try lia.
    rewrite Hscan. simpl.
    apply (findIndex_backward_brackets _ _ fromIndex) in Hscan; try done; try lia.
    + exists i'. split; [|split; [lra|done]].
      f_equal. unfold clamp, min. lia.
    + by rewrite backwardSum_start.
Qed.

Lemma findIndex_brackets_witness :
  ∃ r, findIndex variable_sizes_cache 0 1005 = Some r ∧
    ((0 <= 1005)%Q →
       0 ≤ r ≤ 3 - 1 ∧
       (∀ m, 0 < m ≤ r - 1 →
          (forwardSum variable_sizes_cache 0 m < 1005)%Q) ∧
       (r < 3 - 1 → (1005 <= forwardSum variable_sizes_cache 0 (r + 1))%Q)) ∧
    ((1005 < 0)%Q →
       0 ≤ r ≤ 0 ∧
       (∀ m, r + 1 ≤ m < 0 →
          (1005 < backwardSum variable_sizes_cache 0 m)%Q) ∧
       (0 < r → (backwardSum variable_sizes_cache 0 (r - 1) <= 1005)%Q)).
Proof.
  apply (findIndex_brackets variable_sizes_cache 0 1005).
  - reflexivity.
  - repeat constructor; discriminate.
  - simpl. lia.
Defined.

(** ** The range returned by [computeRange] *)

Lemma findIndex_direction cache i distance :
  Z.of_nat (length (_sizes cache)) = _length cache →
  0 ≤ i ≤ _length cache - 1 →
  ∃ r, findIndex cache i distance = Some r ∧ 0 ≤ r ≤ _length cache - 1 ∧
       ((0 <= distance)%Q → i ≤ r) ∧ ((distance < 0)%Q → r ≤ i).
Proof.
  intros Hs Hi. unfold findIndex, findIndex_scan.
  destruct (Qle_bool 0 distance) eqn:Hdir.
  - apply Qle_bool_iff in Hdir.
    destruct (findIndex_forward_spec (Z.to_nat (_length cache - 1 - i)) cache i
                0%Q distance []) as (i' & reads' & -> & _ & Hi'); try lia.
    simpl. eexists. split; [done|]. unfold clamp, min.
    split; [lia|]. split; [lia|lra].
  - apply Qle_bool_false in Hdir.
    destruct (findIndex_backward_spec (Z.to_nat i) cache i 0%Q distance [])
      as (i' & reads' & -> & _ & Hi'); try lia.
    simpl. eexists. split; [done|]. unfold clamp, min.
    split; [lia|]. split; [lra|lia].
Qed.

(** X12. On a non-empty well-formed store, [computeRange] returns for every
    non-negative [prevStartIndex], also one beyond the store, a pair of
    indices of the store; the range is not reversed when [viewportSize] is
    non-negative (and is reversed or empty when it is negative).  The call
    keeps the sizes, the default, the length and the well-formedness, and
    the prefix-sum invariant where it held. *)
Theorem computeRange_bounds cache scrollOffset prevStartIndex viewportSize :
  wf cache → 0 < _length cache → 0 ≤ prevStartIndex →
  ∃ start finish cache',
    computeRange cache scrollOffset prevStartIndex viewportSize
      = Some ((start, finish), cache') ∧
    0 ≤ start ≤ _length cache - 1 ∧
    0 ≤ finish ≤ _length cache - 1 ∧
    ((0 <= viewportSize)%Q → start ≤ finish) ∧
    ((viewportSize < 0)%Q → finish ≤ start) ∧
    _sizes cache' = _sizes cache ∧
    _defaultItemSize cache' = _defaultItemSize cache ∧
    _length cache' = _length cache ∧
    wf cache' ∧
    (cache_inv cache → cache_inv cache').
Proof.
  intros Hwf Hlen Hprev. pose proof Hwf as [_ Hs _ _].
  destruct (computeRange_total cache scrollOffset prevStartIndex viewportSize
              Hwf Hlen Hprev) as [[[start finish] c'] Hrange].
  rewrite Hrange. exists start, finish, c'. split; [done|].
  assert (cache_inv cache → cache_inv c') as Hkeep
    by (intros Hinv; by eapply computeRange_inv).
  revert Hrange. unfold computeRange, findStartIndexWithOffset.
  set (initialIndex := min prevStartIndex (_length cache - 1)).
  assert (0 ≤ initialIndex ≤ _length cache - 1) as Hidx
    by (unfold initialIndex, min; lia).
  destruct (computeOffset cache initialIndex) as [[o c1]|] eqn:Hoff; [simpl|done].
  destruct (computeOffset_frame _ _ _ _ Hoff) as (Hs1 & Hd1 & Hl1).
  assert (wf c1) as Hwf1 by (eapply computeOffset_wf; [done| |done]; lia).
  assert (Z.of_nat (length (_sizes c1)) = _length c1) as Hlen1 by congruence.
  destruct (findIndex_direction c1 initialIndex (scrollOffset - o)%Q Hlen1)
    as (s1 & -> & Hs1range & _); [lia|]. simpl.
  destruct (findIndex_direction c1 s1 viewportSize Hlen1 Hs1range)
    as (f1 & -> & Hf1range & Hfwd & Hbwd). simpl.
  intros [= <- <- <-].
  split; [lia|]. split; [lia|]. split; [done|]. split; [done|].
  split; [done|]. split; [done|]. split; [done|]. split; done.
Qed.

Lemma computeRange_bounds_witness :
  ∃ start finish cache',
    computeRange measured_cache 14 9 12 = Some ((start, finish), cache') ∧
    0 ≤ start ≤ 3 - 1 ∧
    0 ≤ finish ≤ 3 - 1 ∧
    ((0 <= 12)%Q → start ≤ finish) ∧
    ((12 < 0)%Q → finish ≤ start) ∧
    _sizes cache' = _sizes measured_cache ∧
    _defaultItemSize cache' = _defaultItemSize measured_cache ∧
    _length cache' = _length measured_cache ∧
    wf cache' ∧
    (cache_inv measured_cache → cache_inv cache').
Proof.
  apply (computeRange_bounds measured_cache 14 9 12).
  - constructor; simpl; lia.
  - simpl. lia.
  - lia.
Defined.

(** ** Consecutive offsets and safe reads *)

(** X14. Consecutive offsets differ by the size of the item between them:
    on a store that satisfies the invariants, [computeOffset(i + 1)] is
    [computeOffset(i) + getItemSize(i)]. *)
Theorem computeOffset_successor cache i :
  cache_inv cache → 0 ≤ i → i + 1 < _length cache →
  ∃ o cache1 h o' cache2,
    computeOffset cache i = Some (o, cache1) ∧
    getItemSize cache1 i = Some h ∧
    computeOffset cache1 (i + 1) = Some (o', cache2) ∧
    (o' == o + h)%Q.
Proof.
  intros Hinv Hi Hnext. pose proof Hinv as [[_ Hs _ _] _].
  destruct (computeOffset_value cache i Hinv)
    as (o & c1 & Ho & Hv & Hs1 & Hd1 & Hl1 & Hinv1); [lia|].
  destruct (computeOffset_value c1 (i + 1) Hinv1)
    as (o' & c2 & Ho' & Hv' & _); [lia|].
  destruct (getItemSize_is_Some c1 i) as [h Hh]; [rewrite Hs1; lia|].
  exists o, c1, h, o', c2. repeat split; try done.
  rewrite Hv', (prefixSum_succ c1 i h Hi Hh), Hv.
  by rewrite (prefixSum_frame cache c1 i Hs1 Hd1).
Qed.

Lemma computeOffset_successor_witness :
  ∃ o cache1 h o' cache2,
    computeOffset variable_sizes_cache 1 = Some (o, cache1) ∧
    getItemSize cache1 1 = Some h ∧
    computeOffset cache1 (1 + 1) = Some (o', cache2) ∧
    (o' == o + h)%Q.
Proof.
  apply (computeOffset_successor variable_sizes_cache 1).
  - split.
    + constructor; simpl; lia.
    + intros k Hk Hlen. simpl in Hk. assert (k = 0) as -> by lia.
      exists 0%Q. split; reflexivity.
  - lia.
  - simpl. lia.
Defined.

(** X15. On every reachable store the operations read no entry outside
    the arrays: [setItemSize] and [computeOffset] return for every index of
    the store, [computeTotalSize] returns, and on a non-empty store
    [computeRange] returns for every non-negative [prevStartIndex]. *)
Theorem reachable_reads_defined cache :
  reachable cache →
  (∀ index size, 0 ≤ index < _length cache →
     is_Some (setItemSize cache index size)) ∧
  (∀ index, 0 ≤ index < _length cache → is_Some (computeOffset cache index)) ∧
  is_Some (computeTotalSize cache) ∧
  (∀ scrollOffset prevStartIndex viewportSize,
     0 < _length cache → 0 ≤ prevStartIndex →
     is_Some (computeRange cache scrollOffset prevStartIndex viewportSize)).
Proof.
  intros Hreach. destruct (reachable_inv cache Hreach) as [Hwf _].
  split; [|split; [|split]].
  - intros index size Hidx. by apply setItemSize_total.
  - intros index Hidx. by apply computeOffset_total.
  - by apply computeTotalSize_total.
  - intros scrollOffset prevStartIndex viewportSize Hlen Hprev.
    by apply computeRange_total.
Qed.

Lemma reachable_reads_defined_witness :
  (∀ index size, 0 ≤ index < 3 →
     is_Some (setItemSize measured_cache index size)) ∧
  (∀ index, 0 ≤ index < 3 → is_Some (computeOffset measured_cache index)) ∧
  is_Some (computeTotalSize measured_cache) ∧
  (∀ scrollOffset prevStartIndex viewportSize,
     0 < 3 → 0 ≤ prevStartIndex →
     is_Some (computeRange measured_cache scrollOffset prevStartIndex viewportSize)).
Proof.
  apply (reachable_reads_defined measured_cache), measured_cache_reachable.
Defined.
